(** * Buffer: the growable byte buffer of the WebServer (code/buffer/buffer.cpp)

    A shallow embedding of [class Buffer] and the proofs of its cursor
    discipline: the three regions of the storage, in-place compaction, growth,
    the scatter read from a descriptor and the full reset.

    Modelling conventions.
    - [size_t] is a 64-bit unsigned integer: a [Z] kept in [0, 2^64) with the
      wrap-around written out by [to_size_t].  [ssize_t] and [int] values are
      plain [Z].
    - [std::vector<char>] is a [list byte]; [resize] refuses a size above
      [vector_max_size] with [std::length_error], as the standard library does.
    - Pointers into the storage are offsets from [BeginPtr_()].
    - A call ends in one of four ways, see [outcome]: it returns, an [assert]
      fails (they are compiled in), [resize] throws, or memory outside an
      array is touched.  Forming the address of the first byte of an empty
      storage is the address computation it compiles to; that address is
      the null pointer, an empty storage having never been allocated.
    - What the kernel does on a descriptor is an input of the model. *)

From Stdlib Require Import ZArith Lia.
From Stdlib Require Import Strings.String Strings.Byte.
From stdpp Require Import base list.

Local Open Scope Z_scope.

(** ** Machine integers *)

Definition SIZE_MODULUS : Z := 18446744073709551616.       (* 2^64 *)
Definition vector_max_size : Z := 9223372036854775807.      (* PTRDIFF_MAX = 2^63 - 1 *)
Definition SCRATCH_SIZE : Z := 65535.                       (* sizeof(buff) in ReadFd *)

Definition to_size_t (z : Z) : Z := z mod SIZE_MODULUS.

Definition is_size_t (z : Z) : Prop := 0 <= z < SIZE_MODULUS.

(** ** Outcomes of a call *)

Inductive outcome (A : Type) : Type :=
| Ok (a : A)
| AssertFail        (* an assert() did not hold: abort() *)
| LengthError       (* std::length_error thrown by vector::resize *)
| Undefined.        (* bytes outside an array were read or written *)

Arguments Ok {A} a.
Arguments AssertFail {A}.
Arguments LengthError {A}.
Arguments Undefined {A}.

#[global] Instance outcome_ret : MRet outcome := fun A a => Ok a.

#[global] Instance outcome_bind : MBind outcome := fun A B k m =>
  match m with
  | Ok a => k a
  | AssertFail => AssertFail
  | LengthError => LengthError
  | Undefined => Undefined
  end.

Definition assert (c : bool) : outcome unit :=
  if c then Ok tt else AssertFail.

Definition of_option {A : Type} (o : option A) : outcome A :=
  match o with
  | Some a => Ok a
  | None => Undefined
  end.

(** ** Memory primitives *)

(** [std::copy(first, last, d_first)] with source and destination in the same
    array: [n] elements are copied one by one, front to back, from index
    [first] to index [d]. *)
Fixpoint copy_within (n first d : nat) (l : list byte) : option (list byte) :=
  match n with
  | O => Some l
  | S n' =>
      match l !! first with
      | Some x =>
          if decide (d < length l)%nat
          then copy_within n' (S first) (S d) (<[d := x]> l)
          else None
      | None => None
      end
  end.

(** The same with the pointers [BeginPtr_() + first], [BeginPtr_() + last]
    and [BeginPtr_() + d]; a range whose end lies before its start is not a
    range. *)
Definition std_copy_within (first last d : Z) (l : list byte) : option (list byte) :=
  if decide (0 <= first <= last /\ 0 <= d)
  then copy_within (Z.to_nat (last - first)) (Z.to_nat first) (Z.to_nat d) l
  else None.

(** [std::copy(str, str + len, dest)] from another array: the bytes [src] are
    stored one by one from index [d] on. *)
Fixpoint store_bytes (d : nat) (src : list byte) (l : list byte) : option (list byte) :=
  match src with
  | [] => Some l
  | x :: src' =>
      if decide (d < length l)%nat
      then store_bytes (S d) src' (<[d := x]> l)
      else None
  end.

(** The [len] bytes at offset [off] of the array [l]. *)
Definition load_bytes (l : list byte) (off len : Z) : option (list byte) :=
  if decide (0 <= off /\ 0 <= len /\ off + len <= Z.of_nat (length l))
  then Some (take (Z.to_nat len) (drop (Z.to_nat off) l))
  else None.

(** [std::vector<char>::resize(n)]: truncates, or pads with value-initialised
    (zero) bytes. *)
Definition vector_resize (n : Z) (l : list byte) : outcome (list byte) :=
  if decide (n <= vector_max_size)
  then Ok (resize (Z.to_nat n) x00 l)
  else LengthError.

(** ** The buffer *)

Record Buffer : Type := mkBuffer {
  buffer_ : list byte;
  readPos_ : Z;
  writePos_ : Z
}.

Definition set_buffer (b : Buffer) (l : list byte) : Buffer :=
  mkBuffer l (readPos_ b) (writePos_ b).
Definition set_readPos (b : Buffer) (r : Z) : Buffer :=
  mkBuffer (buffer_ b) r (writePos_ b).
Definition set_writePos (b : Buffer) (w : Z) : Buffer :=
  mkBuffer (buffer_ b) (readPos_ b) w.

(** [buffer_.size()] *)
Definition size (b : Buffer) : Z := Z.of_nat (length (buffer_ b)).

(** [Buffer::Buffer(int initBuffSize)]: the [int] is converted to [size_t]. *)
Definition Buffer_new (initBuffSize : Z) : outcome Buffer :=
  l ← vector_resize (to_size_t initBuffSize) [];
  Ok (mkBuffer l 0 0).

Definition ReadableBytes (b : Buffer) : Z := to_size_t (writePos_ b - readPos_ b).
Definition WritableBytes (b : Buffer) : Z := to_size_t (size b - writePos_ b).
Definition PrependableBytes (b : Buffer) : Z := readPos_ b.

(** [Peek()], [BeginWriteConst()], [BeginWrite()]: offsets from
    [BeginPtr_()]. *)
Definition Peek (b : Buffer) : Z := readPos_ b.
Definition BeginWriteConst (b : Buffer) : Z := writePos_ b.
Definition BeginWrite (b : Buffer) : Z := writePos_ b.

Definition Retrieve (b : Buffer) (len : Z) : outcome Buffer :=
  _ ← assert (len <=? ReadableBytes b);
  Ok (set_readPos b (to_size_t (readPos_ b + len))).

Definition RetrieveUntil (b : Buffer) (end_ : Z) : outcome Buffer :=
  _ ← assert (Peek b <=? end_);
  Retrieve b (to_size_t (end_ - Peek b)).

Definition RetrieveAll (b : Buffer) : Buffer :=
  mkBuffer (replicate (length (buffer_ b)) x00) 0 0.

Definition RetrieveAllToStr (b : Buffer) : outcome (Buffer * list byte) :=
  str ← of_option (load_bytes (buffer_ b) (Peek b) (ReadableBytes b));
  Ok (RetrieveAll b, str).

Definition HasWritten (b : Buffer) (len : Z) : Buffer :=
  set_writePos b (to_size_t (writePos_ b + len)).

Definition MakeSpace_ (b : Buffer) (len : Z) : outcome Buffer :=
  if to_size_t (WritableBytes b + PrependableBytes b) <? len
  then
    l ← vector_resize (to_size_t (writePos_ b + len + 1)) (buffer_ b);
    Ok (set_buffer b l)
  else
    let readable := ReadableBytes b in
    l ← of_option (std_copy_within (readPos_ b) (writePos_ b) 0 (buffer_ b));
    let b1 := mkBuffer l 0 (to_size_t (0 + readable)) in
    _ ← assert (readable =? ReadableBytes b1);
    Ok b1.

Definition EnsureWriteable (b : Buffer) (len : Z) : outcome Buffer :=
  b1 ← (if WritableBytes b <? len then MakeSpace_ b len else Ok b);
  _ ← assert (WritableBytes b1 >=? len);
  Ok b1.

(** [Append(const char* str, size_t len)]: [str] is the array the pointer
    points into, from the pointer on, so that [assert(str)] holds.  It is an
    array outside the storage of the receiver (the bytes of a [std::string],
    the scratch array of [ReadFd], the storage of another buffer), or a part
    of that storage that [EnsureWriteable] leaves where it is.  A pointer into
    a storage that [EnsureWriteable] then moves or reallocates is read after
    the move; that call is not modelled. *)
Definition Append (b : Buffer) (str : list byte) (len : Z) : outcome Buffer :=
  b1 ← EnsureWriteable b len;
  src ← of_option (load_bytes str 0 len);
  l ← of_option (store_bytes (Z.to_nat (BeginWrite b1)) src (buffer_ b1));
  Ok (HasWritten (set_buffer b1 l) len).

(** [Append(const std::string&)], [Append(const void*, size_t)],
    [Append(const Buffer&)] *)
Definition Append_string (b : Buffer) (str : list byte) : outcome Buffer :=
  Append b str (Z.of_nat (length str)).
Definition Append_void (b : Buffer) (data : list byte) (len : Z) : outcome Buffer :=
  Append b data len.
Definition Append_Buffer (b buff : Buffer) : outcome Buffer :=
  (* assert(str): a storage of no bytes was never allocated, its begin() is
     the null pointer, and so is Peek() when readPos_ is 0 *)
  _ ← assert (negb ((size buff =? 0) && (Peek buff =? 0)));
  Append b (drop (Z.to_nat (Peek buff)) (buffer_ buff)) (ReadableBytes buff).

(** ** Descriptors

    What the kernel does is an input of the model.  A descriptor opened for
    reading either fails with an error number or has [pending] bytes to
    deliver; [readv] delivers as many of them as the two destinations hold,
    the first destination being filled before the second.  A descriptor opened
    for writing either fails or accepts up to [room] bytes. *)

Inductive read_fd : Type :=
| RdFail (errno : Z)
| RdReady (pending : list byte).

Inductive write_fd : Type :=
| WrFail (errno : Z)
| WrReady (room : Z).

Record sys_result : Type := mkSys {
  sys_ret : Z;               (* the ssize_t returned *)
  sys_errno : Z;             (* errno, meaningful when sys_ret < 0 *)
  sys_bytes : list byte      (* the bytes delivered by a read *)
}.

Definition readv (fd : read_fd) (iov_len0 iov_len1 : Z) : sys_result :=
  match fd with
  | RdFail e => mkSys (-1) e []
  | RdReady pending =>
      let got := take (Z.to_nat (iov_len0 + iov_len1)) pending in
      mkSys (Z.of_nat (length got)) 0 got
  end.

Definition write (fd : write_fd) (count : Z) : sys_result :=
  match fd with
  | WrFail e => mkSys (-1) e []
  | WrReady room => mkSys (Z.min (Z.max 0 room) count) 0 []
  end.

(** [ReadFd(fd, saveErrno)] returns the buffer, the value returned and the
    value of [*saveErrno]. *)
Definition ReadFd (b : Buffer) (fd : read_fd) (saveErrno : Z)
  : outcome (Buffer * Z * Z) :=
  let writable := WritableBytes b in
  let r := readv fd writable SCRATCH_SIZE in
  (* iov[0]: the writable region; iov[1]: buff *)
  l ← of_option (store_bytes (Z.to_nat (writePos_ b))
                             (take (Z.to_nat writable) (sys_bytes r)) (buffer_ b));
  let buff := drop (Z.to_nat writable) (sys_bytes r) in
  let b0 := set_buffer b l in
  let len := sys_ret r in
  if len <? 0 then
    Ok (b0, len, sys_errno r)
  else if to_size_t len <=? writable then
    Ok (set_writePos b0 (to_size_t (writePos_ b0 + len)), len, saveErrno)
  else
    b1 ← Append (set_writePos b0 (size b0)) buff (to_size_t (len - writable));
    Ok (b1, len, saveErrno).

Definition WriteFd (b : Buffer) (fd : write_fd) (saveErrno : Z)
  : outcome (Buffer * Z * Z) :=
  let readSize := ReadableBytes b in
  let r := write fd readSize in
  let len := sys_ret r in
  if len <? 0 then
    Ok (b, len, sys_errno r)
  else
    Ok (set_readPos b (to_size_t (readPos_ b + len)), len, saveErrno).

(** ** Views used in the statements *)

(** The bytes of the readable region, [storage[readPos_, writePos_)]. *)
Definition readable_content (b : Buffer) : list byte :=
  take (Z.to_nat (writePos_ b - readPos_ b)) (drop (Z.to_nat (readPos_ b)) (buffer_ b)).

(** The invariant of the data model: the cursors are ordered and inside the
    storage, whose size is one a vector can have. *)
Definition WF (b : Buffer) : Prop :=
  0 <= readPos_ b /\ readPos_ b <= writePos_ b /\ writePos_ b <= size b
  /\ size b <= vector_max_size.

Definition bytes_of (s : string) : list byte := list_byte_of_string s.

(** ** Sequences of calls *)

Inductive call : Type :=
| CallAppend (str : list byte)
| CallRetrieve (len : Z).

Definition do_call (b : Buffer) (c : call) : outcome Buffer :=
  match c with
  | CallAppend str => Append_string b str
  | CallRetrieve len => Retrieve b len
  end.

Fixpoint run (b : Buffer) (cs : list call) : outcome Buffer :=
  match cs with
  | [] => Ok b
  | c :: cs' => b' ← do_call b c; run b' cs'
  end.

Definition appended (c : call) : Z :=
  match c with
  | CallAppend str => Z.of_nat (length str)
  | CallRetrieve _ => 0
  end.

Definition consumed (c : call) : Z :=
  match c with
  | CallAppend _ => 0
  | CallRetrieve len => len
  end.

Definition total (f : call -> Z) (cs : list call) : Z :=
  foldr (fun c acc => f c + acc) 0 cs.

(** The preconditions of a sequence of calls, on the lengths alone: a
    [Retrieve] never asks for more than is readable at that point. *)
Fixpoint within_readable (readable : Z) (cs : list call) : bool :=
  match cs with
  | [] => true
  | CallAppend str :: cs' => within_readable (readable + Z.of_nat (length str)) cs'
  | CallRetrieve len :: cs' =>
      (0 <=? len) && (len <=? readable) && within_readable (readable - len) cs'
  end.

(** The storage a sequence may come to need: every [Append] of [len] bytes
    grows it by at most [len + 1]. *)
Definition growth (c : call) : Z :=
  match c with
  | CallAppend str => Z.of_nat (length str) + 1
  | CallRetrieve _ => 0
  end.

(** ** The public operations

    The operations that can change a buffer; the queries ([ReadableBytes],
    [WritableBytes], [PrependableBytes], [Peek], [BeginWriteConst],
    [BeginWrite]) return a value and leave it as it is. *)

Inductive public_op : Type :=
| OpRetrieve (len : Z)
| OpRetrieveUntil (end_ : Z)
| OpRetrieveAll
| OpRetrieveAllToStr
| OpHasWritten (len : Z)
| OpAppend (str : list byte) (len : Z)
| OpAppendString (str : list byte)
| OpAppendBuffer (buff : Buffer)
| OpEnsureWriteable (len : Z)
| OpReadFd (fd : read_fd) (saveErrno : Z)
| OpWriteFd (fd : write_fd) (saveErrno : Z).

Definition exec (b : Buffer) (op : public_op) : outcome Buffer :=
  match op with
  | OpRetrieve len => Retrieve b len
  | OpRetrieveUntil end_ => RetrieveUntil b end_
  | OpRetrieveAll => Ok (RetrieveAll b)
  | OpRetrieveAllToStr => r ← RetrieveAllToStr b; Ok r.1
  | OpHasWritten len => Ok (HasWritten b len)
  | OpAppend str len => Append_void b str len
  | OpAppendString str => Append_string b str
  | OpAppendBuffer buff => Append_Buffer b buff
  | OpEnsureWriteable len => EnsureWriteable b len
  | OpReadFd fd e => r ← ReadFd b fd e; Ok r.1.1
  | OpWriteFd fd e => r ← WriteFd b fd e; Ok r.1.1
  end.

(** The number of bytes an operation asks room for. *)
Definition requested (op : public_op) : Z :=
  match op with
  | OpAppend _ len => len
  | OpAppendString str => Z.of_nat (length str)
  | OpAppendBuffer buff => ReadableBytes buff
  | OpEnsureWriteable len => len
  | _ => 0
  end.

(** What the types give for free: the cursors are [size_t] values and the
    storage has a size a vector can have. *)
Definition representable (b : Buffer) : Prop :=
  is_size_t (readPos_ b) /\ is_size_t (writePos_ b) /\ size b <= vector_max_size.

(** An operation leading from [b] to [b'] keeps the capacity. *)
Definition keeps_capacity (b b' : Buffer) : Prop :=
  representable b' /\ size b <= size b'.

(** [EnsureWriteable(len)] moves the readable bytes to the front: the test of
    [EnsureWriteable] holds and the one of [MakeSpace_] does not. *)
Definition compacts (b : Buffer) (len : Z) : bool :=
  (WritableBytes b <? len)
  && negb (to_size_t (WritableBytes b + PrependableBytes b) <? len).

(** ** The scenario: capacity 10, append "hello", consume 2, append "ab" *)

Definition scenario_after_consume : outcome Buffer :=
  b0 ← Buffer_new 10;
  b1 ← Append_string b0 (bytes_of "hello");
  Retrieve b1 2.

Definition scenario : outcome Buffer :=
  b2 ← scenario_after_consume;
  Append_string b2 (bytes_of "ab").

(** ** Sequences of public operations *)

Fixpoint run_ops (b : Buffer) (ops : list public_op) : outcome Buffer :=
  match ops with
  | [] => Ok b
  | op :: ops' => b' ← exec b op; run_ops b' ops'
  end.

(** What a caller owes an operation, beyond what its assertions check: the
    [size_t] given to [Retrieve] is not negative, [HasWritten] advances over
    writable bytes only, and a bare [EnsureWriteable] asks for a number of
    bytes an object can have. *)
Definition respects (b : Buffer) (op : public_op) : Prop :=
  match op with
  | OpRetrieve len => 0 <= len
  | OpHasWritten len => 0 <= len <= WritableBytes b
  | OpEnsureWriteable len => 0 <= len <= vector_max_size
  | _ => True
  end.

Fixpoint respects_all (b : Buffer) (ops : list public_op) : Prop :=
  match ops with
  | [] => True
  | op :: ops' =>
      respects b op
      /\ match exec b op with
         | Ok b' => respects_all b' ops'
         | _ => True
         end
  end.

(** The bytes a sequence of calls appends, in order. *)
Fixpoint appended_bytes (cs : list call) : list byte :=
  match cs with
  | [] => []
  | CallAppend str :: cs' => str ++ appended_bytes cs'
  | CallRetrieve _ :: cs' => appended_bytes cs'
  end.

(** [int] values. *)
Definition is_int (z : Z) : Prop := -2147483648 <= z <= 2147483647.

(** * Proofs *)

(** ** Machine integers *)

Lemma to_size_t_small (z : Z) : 0 <= z < SIZE_MODULUS -> to_size_t z = z.
Proof. intros H. unfold to_size_t. apply Z.mod_small. exact H. Qed.

Lemma to_size_t_range (z : Z) : is_size_t (to_size_t z).
Proof. unfold is_size_t, to_size_t. apply Z.mod_pos_bound. reflexivity. Qed.

Lemma to_size_t_neg (z : Z) :
  - SIZE_MODULUS <= z < 0 -> to_size_t z = z + SIZE_MODULUS.
Proof.
  intros H. unfold to_size_t.
  rewrite <- (Z.mod_add z 1 SIZE_MODULUS) by discriminate.
  apply Z.mod_small. lia.
Qed.

Lemma to_size_t_over (z : Z) :
  SIZE_MODULUS <= z < 2 * SIZE_MODULUS -> to_size_t z = z - SIZE_MODULUS.
Proof.
  intros H. unfold to_size_t.
  rewrite <- (Z.mod_add z (-1) SIZE_MODULUS) by discriminate.
  apply Z.mod_small. lia.
Qed.

(** ** Memory primitives *)

Lemma copy_within_length (n first d : nat) (l l' : list byte) :
  copy_within n first d l = Some l' -> length l' = length l.
Proof.
  revert first d l. induction n as [|n IH]; intros first d l H; simpl in H.
  - congruence.
  - destruct (l !! first) as [x|]; [|discriminate].
    destruct (decide (d < length l)%nat); [|discriminate].
    apply IH in H. rewrite H. apply length_insert.
Qed.

(** Copying towards the front never overwrites a byte that is still to be
    read: the result is the block moved, everything else in place. *)
Lemma copy_within_spec (n first d : nat) (l : list byte) :
  (d <= first)%nat -> (first + n <= length l)%nat ->
  copy_within n first d l
  = Some (take d l ++ take n (drop first l) ++ drop (d + n) l).
Proof.
  revert first d l. induction n as [|n IH]; intros first d l Hd Hn; simpl.
  - rewrite Nat.add_0_r. simpl. by rewrite take_drop.
  - destruct (lookup_lt_is_Some_2 l first) as [x Hx]; [lia|].
    rewrite Hx. destruct (decide (d < length l)%nat) as [_|Hno]; [|lia].
    rewrite IH by (rewrite ?length_insert; lia).
    f_equal.
    rewrite (take_S_r (<[d:=x]> l) d x) by (apply list_lookup_insert_eq; lia).
    rewrite take_insert_ge by lia.
    rewrite drop_insert_lt by lia.
    rewrite drop_insert_lt by lia.
    rewrite (drop_S l x first Hx). simpl.
    rewrite <- app_assoc. simpl.
    by replace (d + S n)%nat with (S (d + n)) by lia.
Qed.

Lemma store_bytes_length (d : nat) (src l l' : list byte) :
  store_bytes d src l = Some l' -> length l' = length l.
Proof.
  revert d l. induction src as [|x src IH]; intros d l H; simpl in H.
  - congruence.
  - destruct (decide (d < length l)%nat); [|discriminate].
    apply IH in H. rewrite H. apply length_insert.
Qed.

Lemma store_bytes_spec (d : nat) (src l : list byte) :
  (d + length src <= length l)%nat ->
  store_bytes d src l = Some (take d l ++ src ++ drop (d + length src) l).
Proof.
  revert d l. induction src as [|x src IH]; intros d l H; simpl in *.
  - rewrite Nat.add_0_r. by rewrite take_drop.
  - destruct (decide (d < length l)%nat) as [_|Hno]; [|lia].
    rewrite IH by (rewrite length_insert; lia).
    f_equal.
    rewrite (take_S_r (<[d:=x]> l) d x) by (apply list_lookup_insert_eq; lia).
    rewrite take_insert_ge by lia.
    rewrite drop_insert_lt by lia.
    rewrite <- app_assoc. simpl.
    by replace (d + S (length src))%nat with (S (d + length src)) by lia.
Qed.

Lemma store_bytes_inv (d : nat) (src l l' : list byte) :
  store_bytes d src l = Some l' ->
  src = [] \/ (d + length src <= length l)%nat.
Proof.
  revert d l. induction src as [|x src IH]; intros d l H; simpl in *.
  - by left.
  - right. destruct (decide (d < length l)%nat) as [Hd|]; [|discriminate].
    apply IH in H. rewrite length_insert in H. destruct H as [->|H]; simpl; lia.
Qed.


(** ** The regions under the invariant *)

Lemma max_size_lt_modulus : vector_max_size < SIZE_MODULUS.
Proof. reflexivity. Qed.

Lemma ReadableBytes_WF (b : Buffer) :
  WF b -> ReadableBytes b = writePos_ b - readPos_ b.
Proof.
  intros (Hr & Hrw & Hw & Hs). pose proof max_size_lt_modulus as Hmod.
  unfold ReadableBytes. apply to_size_t_small. lia.
Qed.

Lemma WritableBytes_WF (b : Buffer) :
  WF b -> WritableBytes b = size b - writePos_ b.
Proof.
  intros (Hr & Hrw & Hw & Hs). pose proof max_size_lt_modulus as Hmod.
  unfold WritableBytes. apply to_size_t_small. lia.
Qed.

Lemma regions_sum (b : Buffer) :
  WF b -> ReadableBytes b + PrependableBytes b + WritableBytes b = size b.
Proof.
  intros H. rewrite ReadableBytes_WF, WritableBytes_WF by done.
  unfold PrependableBytes. lia.
Qed.

Lemma readable_content_length (b : Buffer) :
  WF b -> Z.of_nat (length (readable_content b)) = ReadableBytes b.
Proof.
  intros H. rewrite ReadableBytes_WF by done.
  destruct H as (Hr & Hrw & Hw & Hs). unfold size in *.
  unfold readable_content. rewrite length_take_le by (rewrite length_drop; lia). lia.
Qed.

(** ** Consuming *)

Lemma Retrieve_ok (b : Buffer) (len : Z) :
  WF b -> 0 <= len <= ReadableBytes b ->
  Retrieve b len = Ok (set_readPos b (readPos_ b + len)).
Proof.
  intros H Hlen. unfold Retrieve.
  rewrite (proj2 (Z.leb_le _ _)) by lia. simpl.
  rewrite ReadableBytes_WF in Hlen by done.
  destruct H as (Hr & Hrw & Hw & Hs). pose proof max_size_lt_modulus as Hmod.
  rewrite to_size_t_small by lia. done.
Qed.

Lemma Retrieve_inv (b b' : Buffer) (len : Z) :
  Retrieve b len = Ok b' ->
  len <= ReadableBytes b /\ b' = set_readPos b (to_size_t (readPos_ b + len)).
Proof.
  unfold Retrieve. destruct (len <=? ReadableBytes b) eqn:E; simpl; [|discriminate].
  intros [= <-]. split; [lia|done].
Qed.

(** ** Making room *)

Lemma MakeSpace_grow (b : Buffer) (len : Z) :
  WF b -> 0 <= len ->
  WritableBytes b + PrependableBytes b < len ->
  writePos_ b + len + 1 <= vector_max_size ->
  MakeSpace_ b len
  = Ok (set_buffer b
          (buffer_ b ++ replicate (Z.to_nat (writePos_ b + len + 1 - size b)) x00)).
Proof.
  intros H Hlen Hlt Hmax. pose proof max_size_lt_modulus as Hmod.
  rewrite WritableBytes_WF in Hlt by done. unfold PrependableBytes in Hlt.
  unfold MakeSpace_. rewrite WritableBytes_WF by done. unfold PrependableBytes.
  destruct H as (Hr & Hrw & Hw & Hs). unfold size in *.
  rewrite !to_size_t_small by lia.
  rewrite (proj2 (Z.ltb_lt _ _)) by lia.
  unfold vector_resize. rewrite decide_True by lia. simpl.
  rewrite resize_ge by lia. do 4 f_equal. lia.
Qed.

Lemma MakeSpace_compact (b : Buffer) (len : Z) :
  WF b ->
  len <= WritableBytes b + PrependableBytes b ->
  MakeSpace_ b len
  = Ok (mkBuffer (readable_content b ++ drop (Z.to_nat (ReadableBytes b)) (buffer_ b))
                 0 (ReadableBytes b)).
Proof.
  intros H Hle. pose proof max_size_lt_modulus as Hmod.
  rewrite WritableBytes_WF in Hle by done. unfold PrependableBytes in Hle.
  unfold MakeSpace_. rewrite (WritableBytes_WF b), (ReadableBytes_WF b) by done.
  unfold PrependableBytes.
  destruct H as (Hr & Hrw & Hw & Hs). unfold size in *.
  rewrite to_size_t_small by lia.
  rewrite (proj2 (Z.ltb_ge _ _)) by lia.
  unfold std_copy_within. rewrite decide_True by lia.
  rewrite copy_within_spec by lia. simpl.
  unfold ReadableBytes. simpl.
  rewrite Z.sub_0_r, !to_size_t_small by lia.
  rewrite Z.eqb_refl. simpl. done.
Qed.

Lemma EnsureWriteable_enough (b : Buffer) (len : Z) :
  len <= WritableBytes b -> EnsureWriteable b len = Ok b.
Proof.
  intros H. unfold EnsureWriteable.
  rewrite (proj2 (Z.ltb_ge _ _)) by lia. simpl.
  rewrite (proj2 (Z.geb_le _ _)) by lia. done.
Qed.

Lemma EnsureWriteable_grow (b : Buffer) (len : Z) :
  WF b -> 0 <= len ->
  WritableBytes b + PrependableBytes b < len ->
  writePos_ b + len + 1 <= vector_max_size ->
  EnsureWriteable b len
  = Ok (set_buffer b
          (buffer_ b ++ replicate (Z.to_nat (writePos_ b + len + 1 - size b)) x00)).
Proof.
  intros H Hlen Hlt Hmax. pose proof max_size_lt_modulus as Hmod.
  unfold EnsureWriteable. rewrite MakeSpace_grow by done.
  pose proof H as (Hr & Hrw & Hw & Hs).
  rewrite WritableBytes_WF in Hlt by done. unfold PrependableBytes in Hlt.
  rewrite (WritableBytes_WF b) by done.
  rewrite (proj2 (Z.ltb_lt _ _)) by lia. simpl.
  unfold WritableBytes, size in *. simpl.
  rewrite length_app, length_replicate.
  rewrite to_size_t_small by lia.
  rewrite (proj2 (Z.geb_le _ _)) by lia. done.
Qed.

Lemma EnsureWriteable_compact (b : Buffer) (len : Z) :
  WF b ->
  WritableBytes b < len <= WritableBytes b + PrependableBytes b ->
  EnsureWriteable b len
  = Ok (mkBuffer (readable_content b ++ drop (Z.to_nat (ReadableBytes b)) (buffer_ b))
                 0 (ReadableBytes b)).
Proof.
  intros H [Hlt Hle]. pose proof max_size_lt_modulus as Hmod.
  unfold EnsureWriteable. rewrite (proj2 (Z.ltb_lt _ _)) by lia.
  rewrite MakeSpace_compact by done. simpl.
  pose proof (readable_content_length b H) as Hlc.
  rewrite WritableBytes_WF in Hle by done. unfold PrependableBytes in Hle.
  rewrite ReadableBytes_WF in * by done.
  destruct H as (Hr & Hrw & Hw & Hs).
  unfold WritableBytes, size in *. simpl.
  rewrite length_app, length_drop.
  rewrite to_size_t_small by lia.
  rewrite (proj2 (Z.geb_le _ _)) by lia. done.
Qed.

(** Whatever branch is taken, [EnsureWriteable] returns a buffer with the same
    readable bytes, room for [len] more, and a storage at least as large. *)
Lemma EnsureWriteable_post (b : Buffer) (len : Z) :
  WF b -> 0 <= len ->
  (WritableBytes b + PrependableBytes b < len ->
   writePos_ b + len + 1 <= vector_max_size) ->
  exists b1, EnsureWriteable b len = Ok b1 /\ WF b1
    /\ readable_content b1 = readable_content b
    /\ ReadableBytes b1 = ReadableBytes b
    /\ len <= WritableBytes b1
    /\ size b <= size b1 <= Z.max (size b) (writePos_ b + len + 1).
Proof.
  intros H Hlen Hmax. pose proof max_size_lt_modulus as Hmod.
  destruct (Z_le_gt_dec len (WritableBytes b)) as [Hen|Hne].
  { exists b. rewrite EnsureWriteable_enough by done. split_and!; try done; lia. }
  destruct (Z_lt_le_dec (WritableBytes b + PrependableBytes b) len) as [Hg|Hc].
  - eexists. rewrite EnsureWriteable_grow by auto. split; [done|].
    specialize (Hmax Hg).
    rewrite WritableBytes_WF in Hg by done. unfold PrependableBytes in Hg.
    pose proof H as (Hr & Hrw & Hw & Hs). unfold size in *.
    assert (WF (set_buffer b (buffer_ b ++
              replicate (Z.to_nat (writePos_ b + len + 1 - Z.of_nat (length (buffer_ b)))) x00)))
      as H'.
    { unfold WF, size. simpl. rewrite length_app, length_replicate. lia. }
    split; [done|]. split; [|split; [|split]].
    + unfold readable_content. simpl.
      rewrite drop_app_le by lia. rewrite take_app_le; [done|].
      rewrite length_drop. lia.
    + done.
    + rewrite WritableBytes_WF by done. unfold size. simpl.
      rewrite length_app, length_replicate. lia.
    + simpl. rewrite length_app, length_replicate. lia.
  - eexists. rewrite EnsureWriteable_compact; [|done|split; [lia|done]]. split; [done|].
    pose proof (readable_content_length b H) as Hlc.
    rewrite WritableBytes_WF in Hc by done. unfold PrependableBytes in Hc.
    rewrite ReadableBytes_WF in * by done.
    pose proof H as (Hr & Hrw & Hw & Hs). unfold size in *.
    set (b1 := mkBuffer _ _ _).
    assert (WF b1) as H'.
    { unfold WF, size, b1. simpl. rewrite length_app, length_drop. lia. }
    split; [done|]. split; [|split; [|split]].
    + unfold readable_content at 1, b1. simpl. rewrite Z.sub_0_r.
      change (Z.to_nat 0) with O. rewrite drop_0.
      rewrite take_app_length'; [done|lia].
    + rewrite ReadableBytes_WF by done. unfold b1. simpl. lia.
    + rewrite WritableBytes_WF by done. unfold size, b1. simpl.
      rewrite length_app, length_drop. lia.
    + unfold b1. simpl. rewrite length_app, length_drop. lia.
Qed.

(** ** Appending *)

Lemma store_at_writePos (b : Buffer) (src : list byte) :
  WF b -> Z.of_nat (length src) <= WritableBytes b ->
  exists l, store_bytes (Z.to_nat (writePos_ b)) src (buffer_ b) = Some l
    /\ length l = length (buffer_ b)
    /\ take (Z.to_nat (writePos_ b + Z.of_nat (length src) - readPos_ b))
            (drop (Z.to_nat (readPos_ b)) l)
       = readable_content b ++ src.
Proof.
  intros H Hlen. rewrite WritableBytes_WF in Hlen by done.
  destruct H as (Hr & Hrw & Hw & Hs). unfold size in *.
  eexists. rewrite store_bytes_spec by lia. split; [done|]. split.
  - rewrite !length_app, length_take, length_drop. lia.
  - unfold readable_content.
    rewrite drop_app_le by (rewrite length_take; lia).
    rewrite app_assoc.
    rewrite take_app_length'.
    + f_equal. rewrite take_drop_commute. do 2 f_equal. lia.
    + rewrite length_app, length_drop, length_take. lia.
Qed.

(** [Append] on a well-formed buffer: the bytes end up behind the readable
    bytes, which are kept; the invariant holds again. *)
Lemma Append_spec (b : Buffer) (str : list byte) (len : Z) :
  WF b -> 0 <= len <= Z.of_nat (length str) ->
  (WritableBytes b + PrependableBytes b < len ->
   writePos_ b + len + 1 <= vector_max_size) ->
  exists b1 b', EnsureWriteable b len = Ok b1 /\ Append b str len = Ok b' /\ WF b'
    /\ readable_content b' = readable_content b ++ take (Z.to_nat len) str
    /\ ReadableBytes b' = ReadableBytes b + len
    /\ size b' = size b1
    /\ readPos_ b' = readPos_ b1
    /\ writePos_ b' = writePos_ b1 + len
    /\ size b <= size b' <= Z.max (size b) (writePos_ b + len + 1).
Proof.
  intros H Hlen Hmax. pose proof max_size_lt_modulus as Hmod.
  destruct (EnsureWriteable_post b len H) as (b1 & E & H1 & Hc & Hrd & Hwr & Hsz);
    [lia|done|].
  assert (length (take (Z.to_nat len) str) = Z.to_nat len) as Hlt
    by (rewrite length_take; lia).
  destruct (store_at_writePos b1 (take (Z.to_nat len) str) H1)
    as (l & Hst & Hll & Hcont); [lia|].
  exists b1. eexists. split; [done|].
  unfold Append. rewrite E. simpl.
  unfold load_bytes. rewrite decide_True by lia. simpl.
  change (Z.to_nat 0) with O. rewrite drop_0.
  unfold BeginWrite. rewrite Hst. simpl. split; [done|].
  rewrite WritableBytes_WF in Hwr by done.
  pose proof H1 as (Hr & Hrw & Hw & Hs). unfold size in *.
  assert (WF (HasWritten (set_buffer b1 l) len)) as H'.
  { unfold WF, size, HasWritten. simpl. rewrite to_size_t_small by lia. lia. }
  split; [done|]. split; [|split; [|split; [|split; [|split]]]].
  - rewrite <- Hc, <- Hcont. unfold readable_content, HasWritten. simpl.
    rewrite to_size_t_small by lia. do 2 f_equal. lia.
  - rewrite ReadableBytes_WF by done. rewrite <- Hrd, (ReadableBytes_WF b1) by done.
    unfold HasWritten. simpl. rewrite to_size_t_small by lia. lia.
  - unfold HasWritten. simpl. lia.
  - done.
  - unfold HasWritten. simpl. rewrite to_size_t_small by lia. done.
  - unfold HasWritten. simpl. lia.
Qed.

(** ** Growth and compaction *)




(** C3, as amended.  On a well-formed buffer, for a length [L] greater than
    [WritableBytes() + PrependableBytes()] with [writePos_ + L + 1] a size a
    vector can have: the growth step of [Append], [EnsureWriteable(L)], leaves
    [WritableBytes() = L + 1 >= L]; once [Append] has copied the [L] bytes and
    returned, [WritableBytes() = 1], and the readable bytes are the ones
    present before the call, unchanged, followed by the appended ones. *)
Theorem C3_Append_growth (b : Buffer) (str : list byte) :
  WF b ->
  Z.of_nat (length str) > WritableBytes b + PrependableBytes b ->
  writePos_ b + Z.of_nat (length str) + 1 <= vector_max_size ->
  exists b1 b',
    EnsureWriteable b (Z.of_nat (length str)) = Ok b1
    /\ WritableBytes b1 = Z.of_nat (length str) + 1
    /\ Append_string b str = Ok b'
    /\ WritableBytes b' = 1
    /\ readable_content b' = readable_content b ++ str.
Proof.
  intros H HL Hmax. set (L := Z.of_nat (length str)) in *.
  assert (0 <= L) as HL0 by (unfold L; lia).
  destruct (Append_spec b str L H) as (b1 & b' & E & EA & H' & Hc & _ & Hsz & _ & Hw' & _);
    [unfold L; lia|done|].
  exists b1, b'. split; [done|].
  rewrite EnsureWriteable_grow in E by (try done; lia).
  injection E as <-.
  pose proof H as (Hr & Hrw & Hw & Hs).
  rewrite WritableBytes_WF in HL by done. unfold PrependableBytes in HL.
  split.
  { unfold WritableBytes, size in *. simpl.
    rewrite length_app, length_replicate.
    pose proof max_size_lt_modulus. rewrite to_size_t_small by lia. lia. }
  split; [done|]. split.
  - rewrite WritableBytes_WF by done. rewrite Hsz, Hw'.
    unfold size in *. simpl. rewrite length_app, length_replicate. lia.
  - rewrite Hc. unfold L. by rewrite Nat2Z.id, take_ge.
Qed.

(** An instance, on the same buffer, appending "hello". *)
Lemma C3_witness :
  exists b1 b',
    EnsureWriteable (mkBuffer (bytes_of "abcd") 1 3) 5 = Ok b1
    /\ WritableBytes b1 = 5 + 1
    /\ Append_string (mkBuffer (bytes_of "abcd") 1 3) (bytes_of "hello") = Ok b'
    /\ WritableBytes b' = 1
    /\ readable_content b' = bytes_of "bc" ++ bytes_of "hello".
Proof.
  apply (C3_Append_growth (mkBuffer (bytes_of "abcd") 1 3) (bytes_of "hello"));
    [unfold WF; vm_compute; intuition discriminate | reflexivity
    | vm_compute; discriminate].
Defined.

(** The claim as first stated fails: after [Append] of 5 bytes to an empty
    buffer of capacity 2 has returned, one byte is writable, not five. *)
Lemma C3_counterexample :
  WF (mkBuffer [x00; x00] 0 0)
  /\ 5 > WritableBytes (mkBuffer [x00; x00] 0 0)
         + PrependableBytes (mkBuffer [x00; x00] 0 0)
  /\ exists b', Append_string (mkBuffer [x00; x00] 0 0) (bytes_of "hello") = Ok b'
       /\ WritableBytes b' = 1
       /\ ~ (WritableBytes b' >= 5).
Proof.
  split; [unfold WF; vm_compute; intuition discriminate|].
  split; [reflexivity|].
  eexists. split; [vm_compute; reflexivity|]. split; [reflexivity|].
  vm_compute. intros Hge. by apply Hge.
Qed.

(** ** The scenario *)

(** C4, as amended.  From capacity 10, after append("hello") and consume(2)
    there are 3 readable, 2 prependable and 5 writable bytes, so append("ab")
    finds room and moves nothing: afterwards [readPos_] is 2, [writePos_] is 7
    and the readable bytes are "lloab". *)
Theorem C4_scenario_no_compaction :
  exists b2 b3,
    scenario_after_consume = Ok b2
    /\ ReadableBytes b2 = 3 /\ PrependableBytes b2 = 2 /\ WritableBytes b2 = 5
    /\ compacts b2 2 = false
    /\ EnsureWriteable b2 2 = Ok b2
    /\ scenario = Ok b3
    /\ readPos_ b3 = 2 /\ writePos_ b3 = 7 /\ size b3 = 10
    /\ readable_content b3 = bytes_of "lloab".
Proof.
  do 2 eexists. split; [vm_compute; reflexivity|].
  split_and!; vm_compute; reflexivity.
Qed.

(** The claim as first stated fails: the last append does not move the
    readable bytes and [readPos_] is not 0 afterwards. *)
Lemma C4_counterexample :
  ~ (exists b2 b3,
       scenario_after_consume = Ok b2 /\ compacts b2 2 = true
       /\ scenario = Ok b3 /\ readPos_ b3 = 0
       /\ readable_content b3 = bytes_of "lloab").
Proof.
  intros (b2 & b3 & E2 & Hc & E3 & Hr & _).
  vm_compute in E3. injection E3 as <-. discriminate Hr.
Qed.

(** ** Advancing the write cursor *)

Lemma HasWritten_within (b : Buffer) (len : Z) :
  WF b -> 0 <= len <= WritableBytes b ->
  writePos_ (HasWritten b len) = writePos_ b + len /\ WF (HasWritten b len).
Proof.
  intros H Hlen. rewrite WritableBytes_WF in Hlen by done.
  destruct H as (Hr & Hrw & Hw & Hs). pose proof max_size_lt_modulus.
  unfold HasWritten, WF, size in *. simpl.
  rewrite to_size_t_small by lia. lia.
Qed.

(** C5.  [HasWritten] has no check.  On a fresh buffer of capacity 4, where
    4 bytes are writable, [HasWritten(5)] returns with [writePos_ = 5], past
    the end of the storage, and the invariant is lost; [Retrieve(5)], in the
    same position on the reading side, stops at its assertion. *)
Theorem C5_HasWritten_unchecked :
  exists b,
    Buffer_new 4 = Ok b
    /\ WritableBytes b = 4
    /\ HasWritten b 5 = mkBuffer (buffer_ b) 0 5
    /\ size (HasWritten b 5) = 4
    /\ ~ WF (HasWritten b 5)
    /\ Retrieve b 5 = AssertFail.
Proof.
  eexists. split; [vm_compute; reflexivity|].
  split_and!; try (vm_compute; reflexivity).
  unfold WF. vm_compute. intros (_ & _ & Hw & _). by apply Hw.
Qed.

(** ** Descriptors *)

Lemma set_buffer_same (b : Buffer) : set_buffer b (buffer_ b) = b.
Proof. by destruct b. Qed.

Lemma readv_negative (fd : read_fd) (n0 n1 : Z) :
  sys_ret (readv fd n0 n1) < 0 -> sys_bytes (readv fd n0 n1) = [].
Proof. destruct fd; simpl; [done|lia]. Qed.

(** C6.  When [readv] returns a negative value, [ReadFd] returns that value,
    stores [errno] in [*saveErrno] and leaves the storage and both cursors as
    they were; the same for [WriteFd] when [write] returns a negative
    value. *)
Theorem C6_failed_call_changes_nothing
    (b : Buffer) (rfd : read_fd) (wfd : write_fd) (saveErrno : Z) :
  sys_ret (readv rfd (WritableBytes b) SCRATCH_SIZE) < 0 ->
  sys_ret (write wfd (ReadableBytes b)) < 0 ->
  ReadFd b rfd saveErrno
  = Ok (b, sys_ret (readv rfd (WritableBytes b) SCRATCH_SIZE),
           sys_errno (readv rfd (WritableBytes b) SCRATCH_SIZE))
  /\ WriteFd b wfd saveErrno
     = Ok (b, sys_ret (write wfd (ReadableBytes b)),
              sys_errno (write wfd (ReadableBytes b))).
Proof.
  intros Hr Hw. split.
  - unfold ReadFd. rewrite (readv_negative _ _ _ Hr).
    rewrite take_nil. simpl.
    rewrite (proj2 (Z.ltb_lt _ _)) by done.
    by rewrite set_buffer_same.
  - unfold WriteFd. by rewrite (proj2 (Z.ltb_lt _ _)) by done.
Qed.

(** An instance, with EAGAIN (11) on the reading side and EPIPE (32) on the writing
    side. *)
Lemma C6_witness :
  ReadFd (mkBuffer (bytes_of "abcd") 1 3) (RdFail 11) 0
  = Ok (mkBuffer (bytes_of "abcd") 1 3, -1, 11)
  /\ WriteFd (mkBuffer (bytes_of "abcd") 1 3) (WrFail 32) 0
     = Ok (mkBuffer (bytes_of "abcd") 1 3, -1, 32).
Proof.
  apply (C6_failed_call_changes_nothing
           (mkBuffer (bytes_of "abcd") 1 3) (RdFail 11) (WrFail 32) 0);
    reflexivity.
Defined.

Lemma readv_length (fd : read_fd) (n0 n1 : Z) :
  0 <= sys_ret (readv fd n0 n1) ->
  Z.of_nat (length (sys_bytes (readv fd n0 n1))) = sys_ret (readv fd n0 n1).
Proof. destruct fd; simpl; [lia|done]. Qed.

Lemma readv_bound (fd : read_fd) (n0 n1 : Z) :
  0 <= n0 + n1 -> sys_ret (readv fd n0 n1) <= n0 + n1.
Proof.
  intros H. destruct fd as [e|pending]; simpl; [lia|].
  rewrite length_take. lia.
Qed.

Lemma modulus_max_size : SIZE_MODULUS = 2 * (vector_max_size + 1).
Proof. reflexivity. Qed.

Lemma max_size_large : 65536 <= vector_max_size.
Proof. by vm_compute. Qed.

Lemma WritableBytes_nonneg (b : Buffer) : 0 <= WritableBytes b.
Proof. apply to_size_t_range. Qed.

(** C10.  Whatever [ReadFd] returns is what [readv] returned, and that is at
    most [WritableBytes()], taken before the call, plus the 65535 bytes of the
    scratch array. *)
Theorem C10_ReadFd_at_most_writable_plus_scratch
    (b b' : Buffer) (fd : read_fd) (saveErrno len saved : Z) :
  ReadFd b fd saveErrno = Ok (b', len, saved) ->
  len = sys_ret (readv fd (WritableBytes b) SCRATCH_SIZE)
  /\ len <= WritableBytes b + 65535.
Proof.
  intros E.
  assert (len = sys_ret (readv fd (WritableBytes b) SCRATCH_SIZE)) as ->.
  { unfold ReadFd in E.
    destruct (store_bytes _ _ _) as [l|]; simpl in E; [|discriminate].
    destruct (_ <? 0); [congruence|].
    destruct (_ <=? _); [congruence|].
    destruct (Append _ _ _); simpl in E; congruence. }
  split; [done|].
  apply (readv_bound fd (WritableBytes b) 65535).
  pose proof (WritableBytes_nonneg b). lia.
Qed.

(** An instance, on a buffer of capacity 2 and a descriptor delivering 6 bytes. *)
Lemma C10_witness :
  6 = sys_ret (readv (RdReady (bytes_of "abcdef")) (WritableBytes (mkBuffer [x00; x00] 0 0))
                     SCRATCH_SIZE)
  /\ 6 <= WritableBytes (mkBuffer [x00; x00] 0 0) + 65535.
Proof.
  apply (C10_ReadFd_at_most_writable_plus_scratch
           (mkBuffer [x00; x00] 0 0)
           (mkBuffer (bytes_of "abcdef" ++ [x00]) 0 6)
           (RdReady (bytes_of "abcdef")) 0 6 0).
  vm_compute. reflexivity.
Defined.

(** C7.  On a well-formed buffer, when [readv] delivers
    [WritableBytes() + N] bytes with [N > 0] (and the storage may grow by
    [N + 1] if it has to): the first [WritableBytes()] bytes land in the
    writable region, [writePos_] is set to [buffer_.size()], and the [N] bytes
    caught in the scratch array are appended to that state.  Afterwards
    [ReadableBytes()] has grown by [WritableBytes() + N], the readable bytes
    are the old ones followed by everything delivered, and their last [N]
    bytes are the ones from the scratch array. *)
Theorem C7_ReadFd_overflow (b : Buffer) (fd : read_fd) (saveErrno N : Z) :
  WF b -> 0 < N ->
  sys_ret (readv fd (WritableBytes b) SCRATCH_SIZE) = WritableBytes b + N ->
  (PrependableBytes b < N -> size b + N + 1 <= vector_max_size) ->
  exists l b',
    store_bytes (Z.to_nat (writePos_ b))
      (take (Z.to_nat (WritableBytes b))
            (sys_bytes (readv fd (WritableBytes b) SCRATCH_SIZE)))
      (buffer_ b) = Some l
    /\ Append (mkBuffer l (readPos_ b) (size b))
              (drop (Z.to_nat (WritableBytes b))
                    (sys_bytes (readv fd (WritableBytes b) SCRATCH_SIZE)))
              N = Ok b'
    /\ ReadFd b fd saveErrno = Ok (b', WritableBytes b + N, saveErrno)
    /\ ReadableBytes b' = ReadableBytes b + (WritableBytes b + N)
    /\ readable_content b'
       = readable_content b ++ sys_bytes (readv fd (WritableBytes b) SCRATCH_SIZE)
    /\ drop (Z.to_nat (ReadableBytes b + WritableBytes b)) (readable_content b')
       = drop (Z.to_nat (WritableBytes b))
              (sys_bytes (readv fd (WritableBytes b) SCRATCH_SIZE))
    /\ Z.of_nat (length (drop (Z.to_nat (WritableBytes b))
              (sys_bytes (readv fd (WritableBytes b) SCRATCH_SIZE)))) = N.
Proof.
  intros H HN Hret Hmax. pose proof modulus_max_size as Hmod.
  pose proof max_size_large as Hlarge.
  pose proof (WritableBytes_nonneg b) as HW0.
  pose proof (readv_length fd (WritableBytes b) SCRATCH_SIZE) as Hlen.
  pose proof (readv_bound fd (WritableBytes b) SCRATCH_SIZE) as Hbd.
  unfold ReadFd. rewrite Hret in *.
  set (data := sys_bytes _) in *.
  set (W := WritableBytes b) in *.
  specialize (Hlen ltac:(lia)). specialize (Hbd ltac:(unfold SCRATCH_SIZE; lia)).
  unfold SCRATCH_SIZE in Hbd.
  assert (Z.of_nat (length (take (Z.to_nat W) data)) = W) as Hpl
    by (rewrite length_take; lia).
  assert (Z.of_nat (length (drop (Z.to_nat W) data)) = N) as Hol
    by (rewrite length_drop; lia).
  destruct (store_at_writePos b (take (Z.to_nat W) data) H) as (l & Hst & Hll & Hcont);
    [fold W; lia|].
  pose proof (readable_content_length b H) as Hlc.
  pose proof (WritableBytes_WF b H) as HWeq. fold W in HWeq.
  pose proof (ReadableBytes_WF b H) as HReq.
  pose proof H as (Hr & Hrw & Hw & Hs).
  set (b0 := mkBuffer l (readPos_ b) (size b)).
  assert (WF b0) as H0.
  { unfold WF, b0, size in *. simpl. rewrite Hll. lia. }
  assert (readable_content b0 = readable_content b ++ take (Z.to_nat W) data) as Hc0.
  { rewrite <- Hcont. unfold readable_content, b0. simpl. do 2 f_equal. lia. }
  assert (WritableBytes b0 = 0) as HW0'.
  { rewrite WritableBytes_WF by done. unfold b0, size. simpl. rewrite Hll. lia. }
  destruct (Append_spec b0 (drop (Z.to_nat W) data) N H0)
    as (b1 & b' & _ & EA & H' & Hc' & HR' & _); [lia| |].
  { rewrite HW0'. unfold PrependableBytes in *. unfold b0 at 1 2. simpl. lia. }
  exists l, b'. split; [done|]. split; [done|].
  assert (readable_content b' = readable_content b ++ data) as Hfinal.
  { rewrite Hc', Hc0, <- app_assoc. f_equal.
    rewrite (take_ge (drop _ _)) by lia. apply take_drop. }
  split.
  { rewrite Hst. simpl.
    rewrite (proj2 (Z.ltb_ge _ _)) by lia.
    rewrite (to_size_t_small (W + N)) by lia.
    rewrite (proj2 (Z.leb_gt _ _)) by lia.
    replace (W + N - W) with N by lia.
    rewrite (to_size_t_small N) by lia.
    unfold set_writePos, set_buffer, size. simpl. rewrite Hll.
    fold (size b). fold b0. by rewrite EA. }
  split.
  { rewrite HR'. rewrite !ReadableBytes_WF by done. unfold b0. simpl. lia. }
  split; [done|]. split; [|done].
  rewrite Hfinal, drop_app_ge by lia.
  f_equal. lia.
Qed.

(** An instance, on a storage of 3 bytes, 2 of them writable, and a descriptor
    delivering "xyz": one byte goes through the scratch array. *)
Lemma C7_witness :
  exists l b',
    store_bytes 1 (bytes_of "xy") (bytes_of "abc") = Some l
    /\ Append (mkBuffer l 1 3) (bytes_of "z") 1 = Ok b'
    /\ ReadFd (mkBuffer (bytes_of "abc") 1 1) (RdReady (bytes_of "xyz")) 0
       = Ok (b', 2 + 1, 0)
    /\ ReadableBytes b' = 0 + (2 + 1)
    /\ readable_content b' = [] ++ bytes_of "xyz"
    /\ drop 2 (readable_content b') = bytes_of "z"
    /\ Z.of_nat (length (bytes_of "z")) = 1.
Proof.
  apply (C7_ReadFd_overflow (mkBuffer (bytes_of "abc") 1 1) (RdReady (bytes_of "xyz")) 0 1);
    [unfold WF; vm_compute; intuition discriminate | reflexivity | reflexivity
    | vm_compute; discriminate].
Defined.

(** ** The full reset *)

Lemma load_readable (b : Buffer) :
  WF b ->
  load_bytes (buffer_ b) (Peek b) (ReadableBytes b) = Some (readable_content b).
Proof.
  intros H. rewrite ReadableBytes_WF by done.
  destruct H as (Hr & Hrw & Hw & Hs). unfold size in *.
  unfold load_bytes, Peek. by rewrite decide_True by lia.
Qed.

Lemma RetrieveAll_spec (b : Buffer) :
  size b <= vector_max_size ->
  readPos_ (RetrieveAll b) = 0 /\ writePos_ (RetrieveAll b) = 0
  /\ buffer_ (RetrieveAll b) = replicate (length (buffer_ b)) x00
  /\ size (RetrieveAll b) = size b
  /\ ReadableBytes (RetrieveAll b) = 0
  /\ WritableBytes (RetrieveAll b) = size b.
Proof.
  intros Hs. pose proof max_size_lt_modulus as Hmod.
  unfold ReadableBytes, WritableBytes, size, RetrieveAll in *. simpl.
  rewrite length_replicate.
  split_and!; try done.
  rewrite Z.sub_0_r. apply to_size_t_small. lia.
Qed.

(** C8.  On a well-formed buffer (whose storage may grow if it has to),
    [Append] of the bytes [X] followed by [RetrieveAllToStr] returns the
    readable bytes with [X] at their end, which is [X] itself when nothing
    was readable before; afterwards nothing is readable and the whole storage
    is writable. *)
Theorem C8_Append_RetrieveAllToStr (b : Buffer) (X : list byte) :
  WF b ->
  (WritableBytes b + PrependableBytes b < Z.of_nat (length X) ->
   writePos_ b + Z.of_nat (length X) + 1 <= vector_max_size) ->
  exists b1 b2 str,
    Append_string b X = Ok b1
    /\ RetrieveAllToStr b1 = Ok (b2, str)
    /\ str = readable_content b ++ X
    /\ (ReadableBytes b = 0 -> str = X)
    /\ ReadableBytes b2 = 0
    /\ WritableBytes b2 = size b2
    /\ size b2 = size b1.
Proof.
  intros H Hmax.
  destruct (Append_spec b X (Z.of_nat (length X)) H)
    as (_ & b1 & _ & EA & H1 & Hc & _); [lia|done|].
  rewrite Nat2Z.id, take_ge in Hc by lia.
  destruct (RetrieveAll_spec b1) as (_ & _ & _ & Hsz & HR & HW); [apply H1|].
  exists b1, (RetrieveAll b1), (readable_content b ++ X).
  split; [done|]. split.
  { unfold RetrieveAllToStr. rewrite load_readable by done. simpl. by rewrite Hc. }
  split; [done|]. split; [|by rewrite Hsz].
  intros HR0. pose proof (readable_content_length b H) as Hl.
  rewrite HR0 in Hl. destruct (readable_content b); [done|simpl in Hl; lia].
Qed.

(** An instance, on the storage "abcd" with "bc" readable, appending "hello". *)
Lemma C8_witness :
  exists b1 b2 str,
    Append_string (mkBuffer (bytes_of "abcd") 1 3) (bytes_of "hello") = Ok b1
    /\ RetrieveAllToStr b1 = Ok (b2, str)
    /\ str = bytes_of "bc" ++ bytes_of "hello"
    /\ (ReadableBytes (mkBuffer (bytes_of "abcd") 1 3) = 0 -> str = bytes_of "hello")
    /\ ReadableBytes b2 = 0
    /\ WritableBytes b2 = size b2
    /\ size b2 = size b1.
Proof.
  apply (C8_Append_RetrieveAllToStr (mkBuffer (bytes_of "abcd") 1 3) (bytes_of "hello"));
    [unfold WF; vm_compute; intuition discriminate | vm_compute; discriminate].
Defined.

(** ** Sequences of calls *)

Lemma Buffer_new_spec (n : Z) :
  0 <= n <= vector_max_size ->
  Buffer_new n = Ok (mkBuffer (replicate (Z.to_nat n) x00) 0 0)
  /\ WF (mkBuffer (replicate (Z.to_nat n) x00) 0 0)
  /\ ReadableBytes (mkBuffer (replicate (Z.to_nat n) x00) 0 0) = 0.
Proof.
  intros Hn. pose proof max_size_lt_modulus as Hmod.
  unfold Buffer_new, vector_resize. rewrite to_size_t_small by lia.
  rewrite decide_True by lia. simpl. split; [by rewrite resize_nil|].
  split; [|done].
  unfold WF, size. simpl. rewrite length_replicate. lia.
Qed.

Lemma total_app (f : call -> Z) (cs1 cs2 : list call) :
  total f (cs1 ++ cs2) = total f cs1 + total f cs2.
Proof. induction cs1 as [|c cs1 IH]; simpl; [done|]. rewrite IH. lia. Qed.

Lemma within_readable_app (r : Z) (cs1 cs2 : list call) :
  within_readable r (cs1 ++ cs2) = true -> within_readable r cs1 = true.
Proof.
  revert r. induction cs1 as [|[str|len] cs1 IH]; intros r H; simpl in *; [done|eauto|].
  apply andb_prop in H as [H1 H2]. rewrite H1. simpl. eauto.
Qed.

Lemma total_growth_nonneg (cs : list call) : 0 <= total growth cs.
Proof. induction cs as [|[str|len] cs IH]; simpl; lia. Qed.

(** One call that respects its precondition returns, keeps the invariant and
    moves the readable length by what it appended or consumed. *)
Lemma do_call_spec (b : Buffer) (c : call) :
  WF b ->
  within_readable (ReadableBytes b) [c] = true ->
  size b + growth c <= vector_max_size ->
  exists b', do_call b c = Ok b' /\ WF b'
    /\ ReadableBytes b' = ReadableBytes b + appended c - consumed c
    /\ size b' <= size b + growth c.
Proof.
  intros H Hpre Hg. destruct c as [str|len]; simpl in *.
  - pose proof H as (Hr & Hrw & Hw & Hs).
    destruct (Append_spec b str (Z.of_nat (length str)) H)
      as (_ & b' & _ & EA & H' & _ & HR & _ & _ & _ & Hsz); [lia|lia|].
    exists b'. split_and!; try done; lia.
  - rewrite andb_true_r in Hpre. apply andb_prop in Hpre as [H0 Hle].
    apply Z.leb_le in H0, Hle.
    exists (set_readPos b (readPos_ b + len)).
    rewrite Retrieve_ok by (try done; lia). split; [done|].
    rewrite ReadableBytes_WF in Hle by done.
    assert (WF (set_readPos b (readPos_ b + len))) as H'.
    { destruct H as (Hr & Hrw & Hw & Hs). unfold WF, size in *. simpl. lia. }
    split; [done|]. rewrite !ReadableBytes_WF by done.
    unfold size. simpl. lia.
Qed.

Lemma run_spec (cs : list call) (b : Buffer) :
  WF b ->
  within_readable (ReadableBytes b) cs = true ->
  size b + total growth cs <= vector_max_size ->
  exists b', run b cs = Ok b' /\ WF b'
    /\ ReadableBytes b' = ReadableBytes b + total appended cs - total consumed cs.
Proof.
  revert b. induction cs as [|c cs IH]; intros b H Hpre Hg.
  - exists b. simpl. split_and!; try done; lia.
  - pose proof (total_growth_nonneg cs) as Hcs.
    assert (0 <= growth c) as Hc by (destruct c; simpl; lia).
    destruct (do_call_spec b c H) as (b1 & E1 & H1 & HR1 & Hs1).
    { destruct c as [str|len]; simpl in *; [done|].
      apply andb_prop in Hpre as [Hp _]. by rewrite Hp. }
    { simpl in Hg. lia. }
    destruct (IH b1 H1) as (b' & E' & H' & HR').
    { rewrite HR1. destruct c as [str|len]; simpl in *.
      - by rewrite Z.sub_0_r.
      - apply andb_prop in Hpre as [_ Hp]. by rewrite Z.add_0_r. }
    { simpl in Hg. lia. }
    exists b'. simpl. rewrite E1. simpl. split; [done|]. split; [done|]. lia.
Qed.

(** C1.  Take a well-formed buffer and a sequence of [Append] and [Retrieve]
    calls that respects the preconditions: no [Retrieve] asks for more than is
    readable at its turn, and the storage the appends may need stays a size a
    vector can have.  Then after each call of the sequence (that is, after
    every prefix [pre]) the call has returned and
    [ReadableBytes() + PrependableBytes() + WritableBytes() = buffer_.size()],
    and [ReadableBytes()] is its initial value (0 for a new buffer) plus the
    lengths appended minus the lengths consumed. *)
Theorem C1_regions_and_net_length (b : Buffer) (pre post : list call) :
  WF b ->
  within_readable (ReadableBytes b) (pre ++ post) = true ->
  size b + total growth (pre ++ post) <= vector_max_size ->
  exists b',
    run b pre = Ok b'
    /\ ReadableBytes b' + PrependableBytes b' + WritableBytes b' = size b'
    /\ ReadableBytes b'
       = ReadableBytes b + total appended pre - total consumed pre.
Proof.
  intros H Hpre Hg.
  rewrite total_app in Hg. pose proof (total_growth_nonneg post).
  destruct (run_spec pre b H) as (b' & E & H' & HR);
    [by eapply within_readable_app|lia|].
  exists b'. split; [done|]. split; [by apply regions_sum|done].
Qed.

(** An instance, on a new buffer of capacity 10: the first three calls of a sequence of
    five. *)
Lemma C1_witness :
  exists b',
    run (mkBuffer (replicate 10 x00) 0 0)
        [CallAppend (bytes_of "hello"); CallRetrieve 2; CallAppend (bytes_of "world!")]
    = Ok b'
    /\ ReadableBytes b' + PrependableBytes b' + WritableBytes b' = size b'
    /\ ReadableBytes b' = 0 + (5 + (0 + (6 + 0))) - (0 + (2 + (0 + 0))).
Proof.
  apply (C1_regions_and_net_length (mkBuffer (replicate 10 x00) 0 0)
           [CallAppend (bytes_of "hello"); CallRetrieve 2; CallAppend (bytes_of "world!")]
           [CallRetrieve 9; CallAppend (bytes_of "0123456789abcdef")]);
    [unfold WF; vm_compute; intuition discriminate | reflexivity
    | vm_compute; discriminate].
Defined.

(** ** The capacity never shrinks *)

(** The lemmas of this part do not assume the invariant: they hold in every
    state the types allow, also one whose write cursor was pushed past the
    storage. *)

Lemma keeps_capacity_refl (b : Buffer) : representable b -> keeps_capacity b b.
Proof. intros H. split; [done|lia]. Qed.

Lemma MakeSpace_capacity (b b' : Buffer) (len : Z) :
  representable b -> 0 <= len <= vector_max_size ->
  WritableBytes b < len ->
  MakeSpace_ b len = Ok b' -> keeps_capacity b b'.
Proof.
  intros (Hr & Hw & Hs) Hlen Hins E. pose proof modulus_max_size as Hmod.
  unfold MakeSpace_ in E.
  destruct (_ <? len).
  - unfold vector_resize in E.
    destruct (decide (_ <= vector_max_size)) as [Hn|]; simpl in E; [|discriminate].
    injection E as <-.
    pose proof (to_size_t_range (writePos_ b + len + 1)) as Hn0.
    unfold keeps_capacity, representable, is_size_t, size in *. simpl.
    rewrite length_resize. split; [lia|].
    unfold WritableBytes, size in Hins.
    destruct (Z_le_gt_dec (writePos_ b) (Z.of_nat (length (buffer_ b)))) as [Hle|Hgt].
    + rewrite to_size_t_small in Hins by lia.
      rewrite to_size_t_small by lia. lia.
    + rewrite to_size_t_neg in Hins by lia.
      rewrite to_size_t_over by lia. lia.
  - destruct (std_copy_within _ _ _ _) as [l|] eqn:Ec; simpl in E; [|discriminate].
    destruct (_ =? _); simpl in E; [|discriminate].
    injection E as <-.
    unfold std_copy_within in Ec. destruct (decide _); [|discriminate].
    apply copy_within_length in Ec.
    pose proof (to_size_t_range (0 + ReadableBytes b)).
    unfold keeps_capacity, representable, is_size_t, size in *. simpl.
    rewrite Ec. lia.
Qed.

Lemma EnsureWriteable_capacity (b b' : Buffer) (len : Z) :
  representable b -> 0 <= len <= vector_max_size ->
  EnsureWriteable b len = Ok b' -> keeps_capacity b b'.
Proof.
  intros H Hlen E. unfold EnsureWriteable in E.
  destruct (WritableBytes b <? len) eqn:Hins.
  - destruct (MakeSpace_ b len) as [b1| | |] eqn:E1; simpl in E; try discriminate.
    destruct (_ >=? len); simpl in E; [|discriminate].
    injection E as <-. apply Z.ltb_lt in Hins. by eapply MakeSpace_capacity.
  - simpl in E. destruct (_ >=? len); simpl in E; [|discriminate].
    injection E as <-. by apply keeps_capacity_refl.
Qed.

Lemma Append_capacity_bounded (b b' : Buffer) (str : list byte) (len : Z) :
  representable b -> 0 <= len <= vector_max_size ->
  Append b str len = Ok b' -> keeps_capacity b b'.
Proof.
  intros H Hlen E. unfold Append in E.
  destruct (EnsureWriteable b len) as [b1| | |] eqn:E1; simpl in E; try discriminate.
  destruct (load_bytes str 0 len) as [src|]; simpl in E; [|discriminate].
  destruct (store_bytes _ _ _) as [l|] eqn:Es; simpl in E; [|discriminate].
  injection E as <-.
  apply store_bytes_length in Es.
  destruct (EnsureWriteable_capacity b b1 len H Hlen E1) as ((Hr & Hw & Hs) & Hle).
  pose proof (to_size_t_range (writePos_ b1 + len)).
  unfold keeps_capacity, representable, is_size_t, size, HasWritten in *. simpl.
  rewrite Es. lia.
Qed.

Lemma MakeSpace_size_bound (b b' : Buffer) (len : Z) :
  size b <= vector_max_size -> MakeSpace_ b len = Ok b' ->
  size b' <= vector_max_size.
Proof.
  intros Hs E. unfold MakeSpace_ in E. destruct (_ <? len).
  - unfold vector_resize in E.
    destruct (decide (_ <= vector_max_size)) as [Hn|]; simpl in E; [|discriminate].
    injection E as <-.
    pose proof (to_size_t_range (writePos_ b + len + 1)) as Hn0.
    unfold is_size_t, size in *. simpl. rewrite length_resize. lia.
  - destruct (std_copy_within _ _ _ _) as [l|] eqn:Ec; simpl in E; [|discriminate].
    destruct (_ =? _); simpl in E; [|discriminate].
    injection E as <-.
    unfold std_copy_within in Ec. destruct (decide _); [|discriminate].
    apply copy_within_length in Ec. unfold size in *. simpl. by rewrite Ec.
Qed.

Lemma EnsureWriteable_size_bound (b b' : Buffer) (len : Z) :
  size b <= vector_max_size -> EnsureWriteable b len = Ok b' ->
  size b' <= vector_max_size.
Proof.
  intros Hs E. unfold EnsureWriteable in E.
  destruct (WritableBytes b <? len).
  - destruct (MakeSpace_ b len) as [b1| | |] eqn:E1; simpl in E; try discriminate.
    destruct (_ >=? len); simpl in E; [|discriminate].
    injection E as <-. by eapply MakeSpace_size_bound.
  - simpl in E. destruct (_ >=? len); simpl in E; [|discriminate].
    by injection E as <-.
Qed.

(** An [Append] that returns has stored [len] bytes inside the storage, so
    [len] was at most the size of a vector: no bound on [len] is needed. *)
Lemma Append_capacity (b b' : Buffer) (str : list byte) (len : Z) :
  representable b -> Append b str len = Ok b' -> keeps_capacity b b'.
Proof.
  intros H E. apply (Append_capacity_bounded b b' str len H); [|done].
  unfold Append in E.
  destruct (EnsureWriteable b len) as [b1| | |] eqn:E1; simpl in E; try discriminate.
  apply EnsureWriteable_size_bound in E1; [|apply H].
  unfold load_bytes in E.
  destruct (decide _) as [(_ & Hlen & Hle)|]; simpl in E; [|discriminate].
  destruct (store_bytes _ _ _) as [l|] eqn:Es; simpl in E; [|discriminate].
  split; [done|].
  apply store_bytes_inv in Es. rewrite length_take in Es.
  unfold size in E1. change (Z.to_nat 0) with O in Es. rewrite drop_0 in Es.
  destruct Es as [Hnil|Hfit]; [|lia].
  apply (f_equal length) in Hnil. rewrite length_take in Hnil. simpl in Hnil.
  pose proof max_size_large. lia.
Qed.

Lemma Retrieve_capacity (b b' : Buffer) (len : Z) :
  representable b -> Retrieve b len = Ok b' -> keeps_capacity b b'.
Proof.
  intros (Hr & Hw & Hs) E. apply Retrieve_inv in E as [_ ->].
  pose proof (to_size_t_range (readPos_ b + len)).
  unfold keeps_capacity, representable, is_size_t, size in *. simpl. lia.
Qed.

Lemma RetrieveAll_capacity (b : Buffer) :
  representable b -> keeps_capacity b (RetrieveAll b).
Proof.
  intros (Hr & Hw & Hs). pose proof modulus_max_size.
  unfold keeps_capacity, representable, is_size_t, size, RetrieveAll in *. simpl.
  rewrite length_replicate. lia.
Qed.

Lemma ReadFd_capacity (b b' : Buffer) (fd : read_fd) (saveErrno len saved : Z) :
  representable b ->
  ReadFd b fd saveErrno = Ok (b', len, saved) -> keeps_capacity b b'.
Proof.
  intros H E. pose proof H as (Hr & Hw & Hs).
  pose proof modulus_max_size as Hmod. pose proof max_size_large as Hlarge.
  pose proof (WritableBytes_nonneg b) as HW0.
  pose proof (readv_bound fd (WritableBytes b) SCRATCH_SIZE) as Hbd.
  specialize (Hbd ltac:(unfold SCRATCH_SIZE; lia)). unfold SCRATCH_SIZE in Hbd.
  unfold ReadFd in E. unfold SCRATCH_SIZE in E.
  set (r := readv fd (WritableBytes b) 65535) in *.
  destruct (store_bytes _ _ _) as [l|] eqn:Es; simpl in E; [|discriminate].
  apply store_bytes_length in Es.
  assert (representable (set_buffer b l)) as H0.
  { unfold representable, size in *. simpl. by rewrite Es. }
  assert (size (set_buffer b l) = size b) as Hsz.
  { unfold size. simpl. by rewrite Es. }
  destruct (sys_ret r <? 0) eqn:Hneg.
  { injection E as <- _ _. split; [done|lia]. }
  apply Z.ltb_ge in Hneg.
  destruct (to_size_t (sys_ret r) <=? WritableBytes b) eqn:Hfit.
  { injection E as <- _ _.
    pose proof (to_size_t_range (writePos_ (set_buffer b l) + sys_ret r)).
    destruct H0 as (? & ? & ?).
    unfold keeps_capacity, representable, is_size_t, size in *. simpl in *. rewrite Es. lia. }
  apply Z.leb_gt in Hfit.
  destruct (Append _ _ _) as [b1| | |] eqn:EA; simpl in E; try discriminate.
  injection E as <- _ _.
  assert (0 <= to_size_t (sys_ret r - WritableBytes b) <= vector_max_size) as Hlen.
  { pose proof (to_size_t_range (size b - writePos_ b)) as HWr.
    fold (WritableBytes b) in HWr. unfold is_size_t in HWr.
    destruct (Z_lt_ge_dec (sys_ret r) SIZE_MODULUS) as [Hsmall|Hbig].
    - rewrite to_size_t_small in Hfit by lia. rewrite to_size_t_small by lia. lia.
    - rewrite to_size_t_over in Hfit by lia. lia. }
  apply Append_capacity_bounded in EA; [|..|done].
  - destruct EA as [? EA]. split; [done|]. rewrite <- Hsz.
    unfold size in *. simpl in *. lia.
  - destruct H0 as (? & ? & ?).
    unfold representable, is_size_t, size in *. simpl in *. lia.
Qed.

Lemma WriteFd_capacity (b b' : Buffer) (fd : write_fd) (saveErrno len saved : Z) :
  representable b ->
  WriteFd b fd saveErrno = Ok (b', len, saved) -> keeps_capacity b b'.
Proof.
  intros H E. pose proof H as (Hr & Hw & Hs). unfold WriteFd in E.
  destruct (_ <? 0).
  - injection E as <- _ _. by apply keeps_capacity_refl.
  - injection E as <- _ _.
    pose proof (to_size_t_range
                  (readPos_ b + sys_ret (write fd (ReadableBytes b)))).
    unfold keeps_capacity, representable, is_size_t, size in *. simpl. lia.
Qed.

(** In every state the types allow, a public operation that returns leaves a
    storage at least as long as before, in a state the types allow again
    (so that this holds along any sequence of operations), provided a bare
    [EnsureWriteable(len)] asks for at most [vector_max_size] bytes.
    [RetrieveAll] and [RetrieveAllToStr] set both cursors to 0 and every byte
    of the storage to zero, and leave its length as it was. *)
Lemma capacity_kept (b b' : Buffer) (op : public_op) :
  representable b ->
  (forall len, op = OpEnsureWriteable len -> 0 <= len <= vector_max_size) ->
  exec b op = Ok b' ->
  size b <= size b'
  /\ representable b'
  /\ (op = OpRetrieveAll \/ op = OpRetrieveAllToStr ->
      readPos_ b' = 0 /\ writePos_ b' = 0
      /\ buffer_ b' = replicate (length (buffer_ b)) x00
      /\ size b' = size b).
Proof.
  intros H Hreq E.
  assert (keeps_capacity b b'
          /\ (op = OpRetrieveAll \/ op = OpRetrieveAllToStr -> b' = RetrieveAll b))
    as [[Hrep Hsz] Hall].
  { destruct op; simpl in *.
    - split; [by eapply Retrieve_capacity|by intros [|]].
    - split; [|by intros [|]]. unfold RetrieveUntil in E.
      destruct (assert _); simpl in E; try discriminate. by eapply Retrieve_capacity.
    - injection E as <-. split; [by apply RetrieveAll_capacity|done].
    - unfold RetrieveAllToStr in E.
      destruct (load_bytes _ _ _); simpl in E; [|discriminate].
      injection E as <-. split; [by apply RetrieveAll_capacity|done].
    - injection E as <-. split; [|by intros [|]].
      destruct H as (Hr & Hw & Hs).
      pose proof (to_size_t_range (writePos_ b + len)).
      unfold keeps_capacity, representable, is_size_t, size, HasWritten in *. simpl. lia.
    - split; [by eapply Append_capacity|by intros [|]].
    - split; [by eapply Append_capacity|by intros [|]].
    - split; [|by intros [|]]. unfold Append_Buffer in E.
      destruct (assert _); simpl in E; try discriminate. by eapply Append_capacity.
    - split; [|by intros [|]].
      eapply EnsureWriteable_capacity; [done| |done]. by apply Hreq.
    - split; [|by intros [|]].
      destruct (ReadFd b fd saveErrno) as [[[b1 n] s]| | |] eqn:E1;
        simpl in E; try discriminate.
      injection E as <-. by eapply ReadFd_capacity.
    - split; [|by intros [|]].
      destruct (WriteFd b fd saveErrno) as [[[b1 n] s]| | |] eqn:E1;
        simpl in E; try discriminate.
      injection E as <-. by eapply WriteFd_capacity. }
  split; [done|]. split; [done|].
  intros Hop. rewrite (Hall Hop). unfold size. simpl.
  by rewrite length_replicate.
Qed.

(** C9.  The capacity can shrink.  With "hello" written in a storage of 10
    bytes, [EnsureWriteable(2^64 - 2)] finds [WritableBytes() = 5 < len] and
    [WritableBytes() + PrependableBytes() = 5 < len], and resizes the storage
    to [writePos_ + len + 1], which wraps around to 4: the storage is cut from
    10 bytes to 4, the readable byte "o" is gone and [writePos_ = 5] lies past
    the end.  The call returns: [WritableBytes()] wraps around as well, to
    [2^64 - 1], and the closing assertion holds.  [RetrieveAll], on the other
    hand, zeroes the storage, resets both cursors and keeps the length. *)
Theorem C9_EnsureWriteable_cuts_storage :
  WF (mkBuffer (bytes_of "hello" ++ replicate 5 x00) 0 5)
  /\ is_size_t 18446744073709551614
  /\ size (mkBuffer (bytes_of "hello" ++ replicate 5 x00) 0 5) = 10
  /\ exec (mkBuffer (bytes_of "hello" ++ replicate 5 x00) 0 5)
          (OpEnsureWriteable 18446744073709551614)
     = Ok (mkBuffer (bytes_of "hell") 0 5)
  /\ size (mkBuffer (bytes_of "hell") 0 5) = 4
  /\ WritableBytes (mkBuffer (bytes_of "hell") 0 5) = 18446744073709551615
  /\ exec (mkBuffer (bytes_of "hello" ++ replicate 5 x00) 0 5) OpRetrieveAll
     = Ok (mkBuffer (replicate 10 x00) 0 0).
Proof.
  split; [unfold WF; vm_compute; intuition discriminate|].
  split; [unfold is_size_t; vm_compute; intuition discriminate|].
  split_and!; vm_compute; reflexivity.
Qed.

(** * Further properties of the operations *)

(** ** Consuming *)

Lemma readable_content_retrieved (b : Buffer) (len : Z) :
  WF b -> 0 <= len <= ReadableBytes b ->
  readable_content (set_readPos b (readPos_ b + len))
  = drop (Z.to_nat len) (readable_content b).
Proof.
  intros H Hlen. rewrite ReadableBytes_WF in Hlen by done.
  destruct H as (Hr & Hrw & Hw & Hs).
  unfold readable_content. simpl.
  replace (Z.to_nat (writePos_ b - readPos_ b))
    with (Z.to_nat len + Z.to_nat (writePos_ b - (readPos_ b + len)))%nat by lia.
  rewrite <- take_drop_commute, drop_drop.
  do 2 f_equal. lia.
Qed.

(** X1.  [Retrieve(len)] with [len <= ReadableBytes()] removes exactly the
    first [len] readable bytes: the rest stays readable, in order, the storage
    and [writePos_] are untouched and the invariant holds again.  Any larger
    [len] stops at the assertion. *)
Theorem X1_Retrieve_drops_front (b : Buffer) (len : Z) :
  WF b -> 0 <= len <= ReadableBytes b ->
  exists b',
    Retrieve b len = Ok b' /\ WF b'
    /\ readable_content b' = drop (Z.to_nat len) (readable_content b)
    /\ ReadableBytes b' = ReadableBytes b - len
    /\ buffer_ b' = buffer_ b /\ writePos_ b' = writePos_ b
    /\ forall k, ReadableBytes b < k -> Retrieve b k = AssertFail.
Proof.
  intros H Hlen. exists (set_readPos b (readPos_ b + len)).
  rewrite Retrieve_ok by done.
  assert (WF (set_readPos b (readPos_ b + len))) as H'.
  { rewrite ReadableBytes_WF in Hlen by done.
    destruct H as (Hr & Hrw & Hw & Hs). unfold WF, size in *. simpl. lia. }
  split_and!; try done.
  - by apply readable_content_retrieved.
  - rewrite !ReadableBytes_WF by done. simpl. lia.
  - intros k Hk. unfold Retrieve.
    by rewrite (proj2 (Z.leb_gt _ _)) by lia.
Qed.

(** An instance: two of the three readable bytes "bcd" are consumed. *)
Lemma X1_witness :
  exists b',
    Retrieve (mkBuffer (bytes_of "abcde") 1 4) 2 = Ok b'
    /\ WF b'
    /\ readable_content b' = drop 2 (bytes_of "bcd")
    /\ ReadableBytes b' = 3 - 2
    /\ buffer_ b' = bytes_of "abcde" /\ writePos_ b' = 4
    /\ forall k, 3 < k -> Retrieve (mkBuffer (bytes_of "abcde") 1 4) k = AssertFail.
Proof.
  apply (X1_Retrieve_drops_front (mkBuffer (bytes_of "abcde") 1 4) 2);
    [unfold WF; vm_compute; intuition discriminate
    | vm_compute; intuition discriminate].
Defined.

(** X2.  [RetrieveUntil(end)] on a well-formed buffer returns exactly when
    [end] points into the readable region or just behind it
    ([Peek() <= end <= BeginWrite()]), and then [Peek()] is [end]; for every
    other pointer one of the two assertions stops the call. *)
Theorem X2_RetrieveUntil_inside_or_abort (b : Buffer) (end_ : Z) :
  WF b -> end_ - Peek b < SIZE_MODULUS ->
  RetrieveUntil b end_
  = if decide (Peek b <= end_ <= BeginWrite b)
    then Ok (set_readPos b end_)
    else AssertFail.
Proof.
  intros H Hend. pose proof H as (Hr & Hrw & Hw & Hs).
  unfold RetrieveUntil, Peek, BeginWrite in *.
  destruct (Z_le_gt_dec (readPos_ b) end_) as [Hle|Hgt].
  - rewrite (proj2 (Z.leb_le _ _)) by done. simpl.
    rewrite to_size_t_small by lia.
    destruct (decide _) as [Hin|Hout].
    + rewrite Retrieve_ok; [|done|rewrite ReadableBytes_WF by done; lia].
      do 2 f_equal. lia.
    + unfold Retrieve. rewrite ReadableBytes_WF by done.
      by rewrite (proj2 (Z.leb_gt _ _)) by lia.
  - rewrite (proj2 (Z.leb_gt _ _)) by lia. simpl.
    by rewrite decide_False by lia.
Qed.

(** An instance: the pointer to "d" in "abcde" with "bcd" readable. *)
Lemma X2_witness :
  RetrieveUntil (mkBuffer (bytes_of "abcde") 1 4) 3
  = if decide (Peek (mkBuffer (bytes_of "abcde") 1 4) <= 3
               <= BeginWrite (mkBuffer (bytes_of "abcde") 1 4))
    then Ok (set_readPos (mkBuffer (bytes_of "abcde") 1 4) 3)
    else AssertFail.
Proof.
  apply (X2_RetrieveUntil_inside_or_abort (mkBuffer (bytes_of "abcde") 1 4) 3);
    [unfold WF; vm_compute; intuition discriminate | reflexivity].
Defined.

(** ** Descriptors, the calls that succeed *)

Lemma write_bound (fd : write_fd) (count : Z) :
  0 <= count -> sys_ret (write fd count) <= count.
Proof. intros H. destruct fd; simpl; lia. Qed.

(** X3.  When [write] takes [n >= 0] bytes, [WriteFd] returns [n], leaves
    [*saveErrno] alone and advances [readPos_] by [n]: the bytes not taken
    stay readable, in order, and [n] more bytes are prependable.  Nothing is
    moved or reset, also when everything was written. *)
Theorem X3_WriteFd_advances_readPos (b : Buffer) (fd : write_fd) (saveErrno : Z) :
  WF b -> 0 <= sys_ret (write fd (ReadableBytes b)) ->
  exists b',
    WriteFd b fd saveErrno = Ok (b', sys_ret (write fd (ReadableBytes b)), saveErrno)
    /\ WF b'
    /\ sys_ret (write fd (ReadableBytes b)) <= ReadableBytes b
    /\ readable_content b'
       = drop (Z.to_nat (sys_ret (write fd (ReadableBytes b)))) (readable_content b)
    /\ ReadableBytes b' = ReadableBytes b - sys_ret (write fd (ReadableBytes b))
    /\ PrependableBytes b'
       = PrependableBytes b + sys_ret (write fd (ReadableBytes b))
    /\ buffer_ b' = buffer_ b /\ writePos_ b' = writePos_ b.
Proof.
  intros H Hn. pose proof max_size_lt_modulus as Hmod.
  pose proof (write_bound fd (ReadableBytes b)) as Hbd.
  set (n := sys_ret (write fd (ReadableBytes b))) in *.
  rewrite ReadableBytes_WF in Hbd by done.
  pose proof H as (Hr & Hrw & Hw & Hs).
  specialize (Hbd ltac:(lia)).
  exists (set_readPos b (readPos_ b + n)).
  assert (WF (set_readPos b (readPos_ b + n))) as H'.
  { unfold WF, size in *. simpl. lia. }
  split_and!; try done.
  - unfold WriteFd. fold n. rewrite (proj2 (Z.ltb_ge _ _)) by done.
    by rewrite to_size_t_small by lia.
  - rewrite ReadableBytes_WF by done. lia.
  - apply readable_content_retrieved; [done|].
    rewrite ReadableBytes_WF by done. lia.
  - rewrite !ReadableBytes_WF by done. simpl. lia.
Qed.

(** An instance: the descriptor takes 2 of the 3 readable bytes. *)
Lemma X3_witness :
  exists b',
    WriteFd (mkBuffer (bytes_of "abcde") 1 4) (WrReady 2) 0 = Ok (b', 2, 0)
    /\ WF b'
    /\ 2 <= ReadableBytes (mkBuffer (bytes_of "abcde") 1 4)
    /\ readable_content b' = drop 2 (bytes_of "bcd")
    /\ ReadableBytes b' = 3 - 2
    /\ PrependableBytes b' = 1 + 2
    /\ buffer_ b' = bytes_of "abcde" /\ writePos_ b' = 4.
Proof.
  apply (X3_WriteFd_advances_readPos (mkBuffer (bytes_of "abcde") 1 4) (WrReady 2) 0);
    [unfold WF; vm_compute; intuition discriminate | vm_compute; discriminate].
Defined.

(** X4.  When [readv] delivers [n] bytes with [0 <= n <= WritableBytes()],
    [ReadFd] stores them in the writable region and advances [writePos_] by
    [n]: the storage keeps its size, [readPos_] its value, nothing is moved,
    and the delivered bytes follow the readable ones.  At end of file
    ([n = 0]) the buffer is left as it was. *)
Theorem X4_ReadFd_fits (b : Buffer) (fd : read_fd) (saveErrno : Z) :
  WF b ->
  0 <= sys_ret (readv fd (WritableBytes b) SCRATCH_SIZE) <= WritableBytes b ->
  exists b',
    ReadFd b fd saveErrno
    = Ok (b', sys_ret (readv fd (WritableBytes b) SCRATCH_SIZE), saveErrno)
    /\ WF b'
    /\ readable_content b'
       = readable_content b ++ sys_bytes (readv fd (WritableBytes b) SCRATCH_SIZE)
    /\ size b' = size b /\ readPos_ b' = readPos_ b
    /\ writePos_ b' = writePos_ b + sys_ret (readv fd (WritableBytes b) SCRATCH_SIZE)
    /\ take (Z.to_nat (writePos_ b)) (buffer_ b')
       = take (Z.to_nat (writePos_ b)) (buffer_ b)
    /\ (sys_ret (readv fd (WritableBytes b) SCRATCH_SIZE) = 0 -> b' = b).
Proof.
  intros H Hn. pose proof max_size_lt_modulus as Hmod.
  pose proof (readv_length fd (WritableBytes b) SCRATCH_SIZE) as Hlen.
  unfold ReadFd.
  set (r := readv fd (WritableBytes b) SCRATCH_SIZE) in *.
  specialize (Hlen ltac:(lia)).
  rewrite (take_ge (sys_bytes r)) by lia.
  destruct (store_at_writePos b (sys_bytes r) H) as (l & Hst & Hll & Hcont); [lia|].
  rewrite Hst. simpl.
  rewrite (proj2 (Z.ltb_ge _ _)) by lia.
  pose proof (WritableBytes_WF b H) as HW.
  pose proof H as (Hr & Hrw & Hw & Hs).
  rewrite (to_size_t_small (sys_ret r)) by (unfold size in *; lia).
  rewrite (proj2 (Z.leb_le _ _)) by lia.
  rewrite to_size_t_small by (unfold size in *; lia).
  eexists. split; [done|].
  assert (WF (set_writePos (set_buffer b l) (writePos_ b + sys_ret r))) as H'.
  { unfold WF, size in *. simpl. rewrite Hll. lia. }
  split_and!; try done.
  - rewrite <- Hcont. unfold readable_content. simpl. by rewrite Hlen.
  - unfold size. simpl. by rewrite Hll.
  - simpl. rewrite store_bytes_spec in Hst by (unfold size in *; lia).
    injection Hst as <-.
    apply take_app_length'. rewrite length_take. unfold size in *. lia.
  - intros H0. rewrite H0 in *.
    destruct (sys_bytes r); [|simpl in Hlen; lia].
    simpl in Hst. injection Hst as <-.
    rewrite Z.add_0_r. by destruct b.
Qed.

(** An instance: 2 bytes arrive, 3 are writable. *)
Lemma X4_witness :
  exists b',
    ReadFd (mkBuffer (bytes_of "abcde") 1 2) (RdReady (bytes_of "xy")) 0 = Ok (b', 2, 0)
    /\ WF b'
    /\ readable_content b' = bytes_of "b" ++ bytes_of "xy"
    /\ size b' = 5 /\ readPos_ b' = 1
    /\ writePos_ b' = 2 + 2
    /\ take 2 (buffer_ b') = bytes_of "ab"
    /\ (2 = 0 -> b' = mkBuffer (bytes_of "abcde") 1 2).
Proof.
  apply (X4_ReadFd_fits (mkBuffer (bytes_of "abcde") 1 2) (RdReady (bytes_of "xy")) 0);
    [unfold WF; vm_compute; intuition discriminate
    | vm_compute; intuition discriminate].
Defined.

(** ** Appending, the cases *)

(** X5.  When [len <= WritableBytes()], [Append] writes the [len] bytes at
    [writePos_] and advances it, and does nothing else: no byte of the storage
    outside [[writePos_, writePos_ + len)] changes, the storage keeps its
    size and [readPos_] its value, so that what [Peek()] pointed to stays in
    place. *)
Theorem X5_Append_in_place (b : Buffer) (str : list byte) (len : Z) :
  WF b -> 0 <= len <= Z.of_nat (length str) -> len <= WritableBytes b ->
  Append b str len
  = Ok (mkBuffer (take (Z.to_nat (writePos_ b)) (buffer_ b)
                  ++ take (Z.to_nat len) str
                  ++ drop (Z.to_nat (writePos_ b + len)) (buffer_ b))
                 (readPos_ b) (writePos_ b + len))
  /\ size b = Z.of_nat (length (take (Z.to_nat (writePos_ b)) (buffer_ b)
                                ++ take (Z.to_nat len) str
                                ++ drop (Z.to_nat (writePos_ b + len)) (buffer_ b))).
Proof.
  intros H Hlen Hfit. pose proof max_size_lt_modulus as Hmod.
  pose proof (WritableBytes_WF b H) as HW.
  pose proof H as (Hr & Hrw & Hw & Hs). unfold size in *.
  split.
  - unfold Append. rewrite EnsureWriteable_enough by done. simpl.
    unfold load_bytes. rewrite decide_True by lia. simpl.
    change (Z.to_nat 0) with O. rewrite drop_0.
    unfold BeginWrite.
    rewrite store_bytes_spec by (rewrite length_take; lia). simpl.
    unfold HasWritten, set_writePos, set_buffer. simpl.
    rewrite to_size_t_small by lia.
    rewrite length_take. do 5 f_equal. lia.
  - rewrite !length_app, !length_take, length_drop. lia.
Qed.

(** An instance: "xy" goes behind "bc" in a storage of 6 bytes. *)
Lemma X5_witness :
  Append (mkBuffer (bytes_of "abc???") 1 3) (bytes_of "xyz") 2
  = Ok (mkBuffer (take 3 (bytes_of "abc???") ++ take 2 (bytes_of "xyz")
                  ++ drop 5 (bytes_of "abc???")) 1 (3 + 2))
  /\ 6 = Z.of_nat (length (take 3 (bytes_of "abc???") ++ take 2 (bytes_of "xyz")
                           ++ drop 5 (bytes_of "abc???"))).
Proof.
  apply (X5_Append_in_place (mkBuffer (bytes_of "abc???") 1 3) (bytes_of "xyz") 2);
    [unfold WF; vm_compute; intuition discriminate
    | vm_compute; intuition discriminate | vm_compute; discriminate].
Defined.

(** X6.  [Append(const std::string&)] allocates only when it must: when the
    length of the string is at most [WritableBytes() + PrependableBytes()] the
    storage keeps its size, the bytes of the string are appended behind the
    readable ones, and the free space, writable plus prependable, shrinks by
    exactly that length.  (The bytes of a [std::string] never lie in the
    storage of the buffer.) *)
Theorem X6_Append_without_growth (b : Buffer) (str : list byte) :
  WF b ->
  Z.of_nat (length str) <= WritableBytes b + PrependableBytes b ->
  exists b',
    Append_string b str = Ok b' /\ WF b'
    /\ size b' = size b
    /\ readable_content b' = readable_content b ++ str
    /\ WritableBytes b' + PrependableBytes b'
       = WritableBytes b + PrependableBytes b - Z.of_nat (length str).
Proof.
  intros H Hfit. unfold Append_string.
  set (len := Z.of_nat (length str)) in *.
  assert (0 <= len <= Z.of_nat (length str)) as Hlen by (unfold len; lia).
  destruct (Append_spec b str len H Hlen) as (b1 & b' & E1 & EA & H' & Hc & HR & Hsz & Hrp & Hwp & _);
    [lia|].
  exists b'. split; [done|]. split; [done|].
  assert (size b1 = size b) as Hsame.
  { destruct (Z_le_gt_dec len (WritableBytes b)) as [Hen|Hne].
    - rewrite EnsureWriteable_enough in E1 by done. by injection E1 as <-.
    - rewrite EnsureWriteable_compact in E1 by (try done; lia).
      injection E1 as <-.
      pose proof (readable_content_length b H) as Hl.
      rewrite ReadableBytes_WF in * by done.
      destruct H as (Hr & Hrw & Hw & Hs).
      unfold size in *. simpl. rewrite length_app, length_drop. lia. }
  split; [lia|]. split.
  { rewrite Hc. unfold len. by rewrite Nat2Z.id, take_ge. }
  pose proof (regions_sum b H). pose proof (regions_sum b' H'). lia.
Qed.

(** An instance: "xyz" fits once the 2 consumed bytes are reclaimed. *)
Lemma X6_witness :
  exists b',
    Append_string (mkBuffer (bytes_of "abcd?") 2 4) (bytes_of "xyz") = Ok b' /\ WF b'
    /\ size b' = 5
    /\ readable_content b' = bytes_of "cd" ++ bytes_of "xyz"
    /\ WritableBytes b' + PrependableBytes b' = 1 + 2 - 3.
Proof.
  apply (X6_Append_without_growth (mkBuffer (bytes_of "abcd?") 2 4) (bytes_of "xyz"));
    [unfold WF; vm_compute; intuition discriminate | vm_compute; discriminate].
Defined.




(** X8.  Appending [x] and then [y] leaves the same readable bytes as
    appending [x ++ y] in one call (the storages may differ in size). *)
Theorem X8_Append_twice_is_Append_once (b : Buffer) (x y : list byte) :
  WF b ->
  size b + Z.of_nat (length x) + Z.of_nat (length y) + 2 <= vector_max_size ->
  exists b1 b2 b12,
    Append_string b x = Ok b1 /\ Append_string b1 y = Ok b2
    /\ Append_string b (x ++ y) = Ok b12
    /\ readable_content b2 = readable_content b12
    /\ readable_content b2 = readable_content b ++ x ++ y.
Proof.
  intros H Hmax. pose proof H as (Hr & Hrw & Hw & Hs).
  destruct (Append_spec b x (Z.of_nat (length x)) H)
    as (_ & b1 & _ & E1 & H1 & Hc1 & _ & _ & _ & _ & Hs1); [lia|lia|].
  pose proof H1 as (Hr1 & Hrw1 & Hw1 & _).
  destruct (Append_spec b1 y (Z.of_nat (length y)) H1)
    as (_ & b2 & _ & E2 & H2 & Hc2 & _); [lia|lia|].
  destruct (Append_spec b (x ++ y) (Z.of_nat (length (x ++ y))) H)
    as (_ & b12 & _ & E12 & H12 & Hc12 & _); [lia|rewrite length_app; lia|].
  exists b1, b2, b12. unfold Append_string. split_and!; try done.
  - rewrite Hc2, Hc1, Hc12. rewrite !Nat2Z.id, !take_ge by lia.
    by rewrite app_assoc.
  - rewrite Hc2, Hc1. rewrite !Nat2Z.id, !take_ge by lia.
    by rewrite app_assoc.
Qed.

(** An instance: "xy" then "z", against "xyz". *)
Lemma X8_witness :
  exists b1 b2 b12,
    Append_string (mkBuffer (bytes_of "abcd") 1 3) (bytes_of "xy") = Ok b1
    /\ Append_string b1 (bytes_of "z") = Ok b2
    /\ Append_string (mkBuffer (bytes_of "abcd") 1 3) (bytes_of "xy" ++ bytes_of "z")
       = Ok b12
    /\ readable_content b2 = readable_content b12
    /\ readable_content b2 = bytes_of "bc" ++ bytes_of "xy" ++ bytes_of "z".
Proof.
  apply (X8_Append_twice_is_Append_once
           (mkBuffer (bytes_of "abcd") 1 3) (bytes_of "xy") (bytes_of "z"));
    [unfold WF; vm_compute; intuition discriminate | vm_compute; discriminate].
Defined.

(** ** Writing through [BeginWrite()] *)

(** X9.  [HasWritten(len)] with [len <= WritableBytes()] makes readable the
    [len] bytes that lie in the storage from [BeginWrite()] on, whatever they
    are, behind the bytes readable before; the storage is not touched and the
    invariant holds again. *)
Theorem X9_HasWritten_exposes_storage (b : Buffer) (len : Z) :
  WF b -> 0 <= len <= WritableBytes b ->
  WF (HasWritten b len)
  /\ readable_content (HasWritten b len)
     = readable_content b
       ++ take (Z.to_nat len) (drop (Z.to_nat (BeginWrite b)) (buffer_ b))
  /\ ReadableBytes (HasWritten b len) = ReadableBytes b + len
  /\ buffer_ (HasWritten b len) = buffer_ b
  /\ readPos_ (HasWritten b len) = readPos_ b.
Proof.
  intros H Hlen. destruct (HasWritten_within b len H Hlen) as [Hw' H'].
  rewrite WritableBytes_WF in Hlen by done.
  split_and!; try done.
  - unfold readable_content. rewrite Hw'. unfold HasWritten, BeginWrite. simpl.
    destruct H as (Hr & Hrw & Hw & Hs). unfold size in *.
    replace (Z.to_nat (writePos_ b + len - readPos_ b))
      with (Z.to_nat (writePos_ b - readPos_ b) + Z.to_nat len)%nat by lia.
    rewrite <- take_take_drop, drop_drop. do 3 f_equal. lia.
  - rewrite !ReadableBytes_WF by done. rewrite Hw'. unfold HasWritten. simpl. lia.
Qed.

(** An instance: the caller has put "xy" behind "bc" and reports 2 bytes. *)
Lemma X9_witness :
  WF (HasWritten (mkBuffer (bytes_of "abcxy?") 1 3) 2)
  /\ readable_content (HasWritten (mkBuffer (bytes_of "abcxy?") 1 3) 2)
     = bytes_of "bc" ++ take 2 (drop 3 (bytes_of "abcxy?"))
  /\ ReadableBytes (HasWritten (mkBuffer (bytes_of "abcxy?") 1 3) 2) = 2 + 2
  /\ buffer_ (HasWritten (mkBuffer (bytes_of "abcxy?") 1 3) 2) = bytes_of "abcxy?"
  /\ readPos_ (HasWritten (mkBuffer (bytes_of "abcxy?") 1 3) 2) = 1.
Proof.
  apply (X9_HasWritten_exposes_storage (mkBuffer (bytes_of "abcxy?") 1 3) 2);
    [unfold WF; vm_compute; intuition discriminate
    | vm_compute; intuition discriminate].
Defined.

(** X10.  Once [EnsureWriteable(len)] has returned, in whatever state, asking
    again for [len] bytes or fewer returns at once and changes nothing: the
    room is kept until bytes are written. *)
Theorem X10_EnsureWriteable_again (b b1 : Buffer) (len len' : Z) :
  EnsureWriteable b len = Ok b1 -> len' <= len ->
  EnsureWriteable b1 len' = Ok b1.
Proof.
  intros E Hle. apply EnsureWriteable_enough.
  unfold EnsureWriteable in E.
  destruct (if WritableBytes b <? len then MakeSpace_ b len else Ok b)
    as [b2| | |]; simpl in E; try discriminate.
  destruct (WritableBytes b2 >=? len) eqn:Hge; simpl in E; [|discriminate].
  injection E as <-. apply Z.geb_le in Hge. lia.
Qed.

(** An instance: room for 5 bytes was made by growing "abcd"; 3 are asked. *)
Lemma X10_witness :
  EnsureWriteable (mkBuffer (bytes_of "abcd" ++ replicate 5 x00) 1 3) 3
  = Ok (mkBuffer (bytes_of "abcd" ++ replicate 5 x00) 1 3).
Proof.
  apply (X10_EnsureWriteable_again (mkBuffer (bytes_of "abcd") 1 3)
           (mkBuffer (bytes_of "abcd" ++ replicate 5 x00) 1 3) 5 3);
    [vm_compute; reflexivity | vm_compute; discriminate].
Defined.

(** ** The stream of bytes *)

Lemma total_consumed_nonneg (r : Z) (cs : list call) :
  within_readable r cs = true -> 0 <= total consumed cs.
Proof.
  revert r. induction cs as [|[str|len] cs IH]; intros r H; simpl in *.
  - lia.
  - specialize (IH _ H). lia.
  - apply andb_prop in H as [H1 H2]. apply andb_prop in H1 as [H0 _].
    apply Z.leb_le in H0. specialize (IH _ H2). lia.
Qed.

Lemma do_call_content (b : Buffer) (c : call) :
  WF b ->
  within_readable (ReadableBytes b) [c] = true ->
  size b + growth c <= vector_max_size ->
  exists b', do_call b c = Ok b' /\ WF b'
    /\ size b' <= size b + growth c
    /\ ReadableBytes b' = ReadableBytes b + appended c - consumed c
    /\ readable_content b'
       = match c with
         | CallAppend str => readable_content b ++ str
         | CallRetrieve len => drop (Z.to_nat len) (readable_content b)
         end.
Proof.
  intros H Hpre Hg. destruct c as [str|len]; simpl in *.
  - pose proof H as (Hr & Hrw & Hw & Hs).
    destruct (Append_spec b str (Z.of_nat (length str)) H)
      as (_ & b' & _ & EA & H' & Hc & HR & _ & _ & _ & Hsz); [lia|lia|].
    exists b'. rewrite Nat2Z.id, take_ge in Hc by lia.
    split_and!; try done; lia.
  - rewrite andb_true_r in Hpre. apply andb_prop in Hpre as [H0 Hle].
    apply Z.leb_le in H0, Hle.
    exists (set_readPos b (readPos_ b + len)).
    rewrite Retrieve_ok by (try done; lia).
    assert (WF (set_readPos b (readPos_ b + len))) as H'.
    { rewrite ReadableBytes_WF in Hle by done.
      destruct H as (Hr & Hrw & Hw & Hs). unfold WF, size in *. simpl. lia. }
    split_and!; try done.
    + unfold size. simpl. lia.
    + rewrite !ReadableBytes_WF by done. simpl. lia.
    + by apply readable_content_retrieved.
Qed.

(** X11.  The buffer is a queue of bytes.  After a sequence of [Append] and
    [Retrieve] calls that respects the preconditions (as in C1), the readable
    bytes are the bytes readable at the start followed by all the bytes
    appended, in order, without the first [total consumed] of them: no byte is
    lost, repeated or reordered, however often the storage was grown or
    compacted on the way. *)
Theorem X11_first_in_first_out (cs : list call) (b : Buffer) :
  WF b ->
  within_readable (ReadableBytes b) cs = true ->
  size b + total growth cs <= vector_max_size ->
  exists b',
    run b cs = Ok b' /\ WF b'
    /\ readable_content b'
       = drop (Z.to_nat (total consumed cs)) (readable_content b ++ appended_bytes cs).
Proof.
  revert b. induction cs as [|c cs IH]; intros b H Hpre Hg.
  - exists b. simpl. by rewrite app_nil_r.
  - pose proof (total_growth_nonneg cs) as Hcs.
    assert (0 <= growth c) as Hc by (destruct c; simpl; lia).
    destruct (do_call_content b c H) as (b1 & E1 & H1 & Hs1 & HR1 & Hc1).
    { destruct c as [str|len]; simpl in *; [done|].
      apply andb_prop in Hpre as [Hp _]. by rewrite Hp. }
    { simpl in Hg. lia. }
    assert (within_readable (ReadableBytes b1) cs = true) as Hpre1.
    { rewrite HR1. destruct c as [str|len]; simpl in *.
      - by rewrite Z.sub_0_r.
      - apply andb_prop in Hpre as [_ Hp]. by rewrite Z.add_0_r. }
    destruct (IH b1 H1 Hpre1) as (b' & E' & H' & Hc'); [simpl in Hg; lia|].
    exists b'. simpl. rewrite E1. simpl. split; [done|]. split; [done|].
    rewrite Hc', Hc1. pose proof (total_consumed_nonneg _ _ Hpre1) as HC.
    destruct c as [str|len]; simpl in *.
    + by rewrite <- app_assoc.
    + apply andb_prop in Hpre as [Hp _]. apply andb_prop in Hp as [H0 Hle].
      apply Z.leb_le in H0, Hle.
      pose proof (readable_content_length b H) as Hl.
      rewrite <- drop_app_le by lia.
      rewrite drop_drop. f_equal. lia.
Qed.

(** An instance: "hello", consume 2, "world!", consume 4 leaves "oworld!"
    minus one byte. *)
Lemma X11_witness :
  exists b',
    run (mkBuffer (replicate 10 x00) 0 0)
        [CallAppend (bytes_of "hello"); CallRetrieve 2;
         CallAppend (bytes_of "world!"); CallRetrieve 4] = Ok b'
    /\ WF b'
    /\ readable_content b' = drop 6 ([] ++ bytes_of "hello" ++ bytes_of "world!" ++ []).
Proof.
  apply (X11_first_in_first_out
           [CallAppend (bytes_of "hello"); CallRetrieve 2;
            CallAppend (bytes_of "world!"); CallRetrieve 4]
           (mkBuffer (replicate 10 x00) 0 0));
    [unfold WF; vm_compute; intuition discriminate | reflexivity
    | vm_compute; discriminate].
Defined.

(** ** The invariant along the public operations *)

Lemma WF_representable (b : Buffer) : WF b -> representable b.
Proof.
  intros (Hr & Hrw & Hw & Hs). pose proof max_size_lt_modulus.
  unfold representable, is_size_t. lia.
Qed.

Lemma Retrieve_keeps_WF (b b' : Buffer) (len : Z) :
  WF b -> 0 <= len -> Retrieve b len = Ok b' -> WF b'.
Proof.
  intros H Hlen E. apply Retrieve_inv in E as [Hle ->].
  rewrite ReadableBytes_WF in Hle by done.
  destruct H as (Hr & Hrw & Hw & Hs). pose proof max_size_lt_modulus.
  unfold WF, size in *. simpl. rewrite to_size_t_small by lia. lia.
Qed.

(** A growth that returned was asked for a size a vector can have. *)
Lemma EnsureWriteable_Ok_feasible (b b1 : Buffer) (len : Z) :
  WF b -> 0 <= len <= vector_max_size ->
  EnsureWriteable b len = Ok b1 ->
  WritableBytes b + PrependableBytes b < len ->
  writePos_ b + len + 1 <= vector_max_size.
Proof.
  intros H Hlen E Hg. pose proof modulus_max_size as Hmod.
  pose proof (WritableBytes_WF b H) as HW.
  pose proof H as (Hr & Hrw & Hw & Hs).
  unfold EnsureWriteable, MakeSpace_ in E. unfold PrependableBytes in *.
  rewrite (proj2 (Z.ltb_lt (WritableBytes b) len)) in E by lia.
  rewrite (to_size_t_small (WritableBytes b + readPos_ b)) in E by lia.
  rewrite (proj2 (Z.ltb_lt _ len)) in E by lia.
  unfold vector_resize in E.
  destruct (decide (_ <= vector_max_size)) as [Hn|]; simpl in E; [|discriminate].
  rewrite to_size_t_small in Hn by lia. done.
Qed.

Lemma EnsureWriteable_keeps_WF (b b1 : Buffer) (len : Z) :
  WF b -> 0 <= len <= vector_max_size ->
  EnsureWriteable b len = Ok b1 -> WF b1.
Proof.
  intros H Hlen E.
  destruct (EnsureWriteable_post b len H) as (b2 & E2 & H2 & _); [lia| |congruence].
  by eapply EnsureWriteable_Ok_feasible.
Qed.

Lemma Append_keeps_WF (b b' : Buffer) (str : list byte) (len : Z) :
  WF b -> Append b str len = Ok b' -> WF b'.
Proof.
  intros H E. pose proof E as E0. unfold Append in E.
  destruct (EnsureWriteable b len) as [b1| | |] eqn:E1; simpl in E; try discriminate.
  unfold load_bytes in E.
  destruct (decide _) as [(_ & Hlen & Hle)|]; simpl in E; [|discriminate].
  destruct (store_bytes _ _ _) as [l|] eqn:Es; simpl in E; [|discriminate].
  assert (len <= vector_max_size) as Hmax.
  { pose proof (EnsureWriteable_size_bound b b1 len) as Hb.
    specialize (Hb ltac:(apply H) E1). unfold size in Hb.
    apply store_bytes_inv in Es. rewrite length_take in Es.
    change (Z.to_nat 0) with O in Es. rewrite drop_0 in Es.
    destruct Es as [Hnil|Hfit]; [|lia].
    apply (f_equal length) in Hnil. rewrite length_take in Hnil. simpl in Hnil.
    pose proof max_size_large. lia. }
  destruct (Append_spec b str len H) as (_ & b2 & _ & E2 & H2 & _); [lia| |congruence].
  by eapply EnsureWriteable_Ok_feasible.
Qed.

Lemma ReadFd_keeps_WF (b b' : Buffer) (fd : read_fd) (saveErrno len saved : Z) :
  WF b -> ReadFd b fd saveErrno = Ok (b', len, saved) -> WF b'.
Proof.
  intros H E. pose proof modulus_max_size as Hmod. pose proof max_size_large.
  pose proof (WritableBytes_WF b H) as HW.
  pose proof (WritableBytes_nonneg b) as HW0.
  pose proof (readv_bound fd (WritableBytes b) SCRATCH_SIZE) as Hbd.
  specialize (Hbd ltac:(unfold SCRATCH_SIZE; lia)). unfold SCRATCH_SIZE in *.
  pose proof H as (Hr & Hrw & Hw & Hs).
  unfold ReadFd in E. unfold SCRATCH_SIZE in E.
  set (r := readv fd (WritableBytes b) 65535) in *.
  destruct (store_bytes _ _ _) as [l|] eqn:Es; simpl in E; [|discriminate].
  apply store_bytes_length in Es.
  destruct (sys_ret r <? 0) eqn:Hneg.
  { injection E as <- _ _. unfold WF, size in *. simpl. rewrite Es. lia. }
  apply Z.ltb_ge in Hneg.
  rewrite (to_size_t_small (sys_ret r)) in E by lia.
  destruct (sys_ret r <=? WritableBytes b) eqn:Hfit.
  { injection E as <- _ _. apply Z.leb_le in Hfit.
    unfold WF, size in *. simpl. rewrite Es, to_size_t_small by lia. lia. }
  destruct (Append _ _ _) as [b1| | |] eqn:EA; simpl in E; try discriminate.
  injection E as <- _ _.
  apply Append_keeps_WF in EA; [done|].
  unfold WF, size in *. simpl. rewrite Es. lia.
Qed.

Lemma WriteFd_keeps_WF (b b' : Buffer) (fd : write_fd) (saveErrno len saved : Z) :
  WF b -> WriteFd b fd saveErrno = Ok (b', len, saved) -> WF b'.
Proof.
  intros H E. pose proof max_size_lt_modulus as Hmod.
  pose proof (write_bound fd (ReadableBytes b)) as Hbd.
  rewrite ReadableBytes_WF in Hbd by done.
  pose proof H as (Hr & Hrw & Hw & Hs). specialize (Hbd ltac:(lia)).
  unfold WriteFd in E. rewrite ReadableBytes_WF in E by done.
  destruct (_ <? 0) eqn:Hneg.
  - by injection E as <- _ _.
  - injection E as <- _ _. apply Z.ltb_ge in Hneg.
    unfold WF, size in *. simpl. rewrite to_size_t_small by lia. lia.
Qed.

Lemma RetrieveAll_WF (b : Buffer) : WF b -> WF (RetrieveAll b).
Proof.
  intros (Hr & Hrw & Hw & Hs). unfold WF, size, RetrieveAll in *. simpl.
  rewrite length_replicate. lia.
Qed.

Lemma exec_keeps_WF (b b' : Buffer) (op : public_op) :
  WF b -> respects b op -> exec b op = Ok b' -> WF b'.
Proof.
  intros H Hop E. destruct op; simpl in *.
  - by eapply Retrieve_keeps_WF.
  - unfold RetrieveUntil in E. destruct (assert _); simpl in E; try discriminate.
    eapply Retrieve_keeps_WF; [done| |done]. apply to_size_t_range.
  - injection E as <-. by apply RetrieveAll_WF.
  - unfold RetrieveAllToStr in E.
    destruct (load_bytes _ _ _); simpl in E; [|discriminate].
    injection E as <-. by apply RetrieveAll_WF.
  - injection E as <-. by apply HasWritten_within.
  - by eapply Append_keeps_WF.
  - by eapply Append_keeps_WF.
  - unfold Append_Buffer in E.
    destruct (assert _); simpl in E; try discriminate. by eapply Append_keeps_WF.
  - by eapply EnsureWriteable_keeps_WF.
  - destruct (ReadFd b fd saveErrno) as [[[b1 n] s]| | |] eqn:E1;
      simpl in E; try discriminate.
    injection E as <-. by eapply ReadFd_keeps_WF.
  - destruct (WriteFd b fd saveErrno) as [[[b1 n] s]| | |] eqn:E1;
      simpl in E; try discriminate.
    injection E as <-. by eapply WriteFd_keeps_WF.
Qed.

(** X12.  Along any sequence of public operations, started on a well-formed
    buffer, in which [Retrieve] gets a [size_t], [HasWritten] advances over
    writable bytes only and a bare [EnsureWriteable] asks for at most
    [vector_max_size] bytes: if the sequence returns, the invariant
    [0 <= readPos_ <= writePos_ <= buffer_.size()] holds at the end and the
    storage is at least as long as at the start.  The assertions of the code
    stop every other misuse. *)
Theorem X12_invariant_along_operations (ops : list public_op) (b b' : Buffer) :
  WF b -> respects_all b ops -> run_ops b ops = Ok b' ->
  WF b' /\ size b <= size b'.
Proof.
  revert b. induction ops as [|op ops IH]; intros b H Hall E; simpl in *.
  - injection E as <-. split; [done|lia].
  - destruct Hall as [Hop Hall].
    destruct (exec b op) as [b1| | |] eqn:E1; simpl in E; try discriminate.
    pose proof (exec_keeps_WF b b1 op H Hop E1) as H1.
    destruct (capacity_kept b b1 op) as (Hsz & _); [by apply WF_representable| |done|].
    { intros len ->. exact Hop. }
    destruct (IH b1 H1 Hall E) as [H' Hsz']. split; [done|lia].
Qed.

(** An instance: seven operations on a buffer of capacity 4. *)
Lemma X12_witness :
  WF (mkBuffer (replicate 6 x00) 0 0)
  /\ size (mkBuffer (replicate 4 x00) 0 0) <= size (mkBuffer (replicate 6 x00) 0 0).
Proof.
  apply (X12_invariant_along_operations
           [OpAppendString (bytes_of "abc"); OpRetrieve 2; OpEnsureWriteable 2;
            OpHasWritten 1; OpReadFd (RdReady (bytes_of "xyz")) 0;
            OpWriteFd (WrReady 3) 0; OpRetrieveAll]
           (mkBuffer (replicate 4 x00) 0 0) (mkBuffer (replicate 6 x00) 0 0));
    [unfold WF; vm_compute; intuition discriminate
    | vm_compute; intuition discriminate
    | vm_compute; reflexivity].
Defined.

(** ** The constructor *)

(** X13.  [Buffer(initBuffSize)] with a non-negative [int] gives a storage of
    that many zero bytes with nothing readable and all of it writable; with a
    negative [int], converted to [size_t], the vector cannot be created and
    [std::length_error] is thrown. *)
Theorem X13_Buffer_new (n : Z) :
  is_int n ->
  Buffer_new n
  = (if decide (0 <= n)
     then Ok (mkBuffer (replicate (Z.to_nat n) x00) 0 0)
     else LengthError)
  /\ (0 <= n ->
      WF (mkBuffer (replicate (Z.to_nat n) x00) 0 0)
      /\ ReadableBytes (mkBuffer (replicate (Z.to_nat n) x00) 0 0) = 0
      /\ WritableBytes (mkBuffer (replicate (Z.to_nat n) x00) 0 0) = n).
Proof.
  intros [Hlo Hhi]. pose proof modulus_max_size as Hmod.
  assert (2147483647 < vector_max_size) as Hbig by reflexivity.
  split.
  - destruct (decide (0 <= n)) as [H0|Hneg].
    + by apply Buffer_new_spec; lia.
    + unfold Buffer_new, vector_resize.
      rewrite to_size_t_neg by lia. by rewrite decide_False by lia.
  - intros H0. destruct (Buffer_new_spec n) as (_ & H & HR); [lia|].
    split_and!; try done.
    rewrite WritableBytes_WF by done. unfold size. simpl.
    rewrite length_replicate. lia.
Qed.

(** An instance: the default capacity of the server, 1024. *)
Lemma X13_witness :
  Buffer_new 1024
  = (if decide (0 <= 1024)
     then Ok (mkBuffer (replicate (Z.to_nat 1024) x00) 0 0)
     else LengthError)
  /\ (0 <= 1024 ->
      WF (mkBuffer (replicate (Z.to_nat 1024) x00) 0 0)
      /\ ReadableBytes (mkBuffer (replicate (Z.to_nat 1024) x00) 0 0) = 0
      /\ WritableBytes (mkBuffer (replicate (Z.to_nat 1024) x00) 0 0) = 1024).
Proof.
  apply (X13_Buffer_new 1024). unfold is_int. vm_compute. intuition discriminate.
Defined.

(** ** What a call that returned has done *)

(** An [Append] that returned was given [len] bytes it could read, and grew
    the storage, if it did, to a size a vector can have. *)
Lemma Append_Ok_inv (b b' : Buffer) (str : list byte) (len : Z) :
  WF b -> Append b str len = Ok b' ->
  0 <= len <= Z.of_nat (length str)
  /\ (WritableBytes b + PrependableBytes b < len ->
      writePos_ b + len + 1 <= vector_max_size).
Proof.
  intros H E. unfold Append in E.
  destruct (EnsureWriteable b len) as [b1| | |] eqn:E1; simpl in E; try discriminate.
  unfold load_bytes in E.
  destruct (decide _) as [(_ & Hlen & Hle)|]; simpl in E; [|discriminate].
  destruct (store_bytes _ _ _) as [l|] eqn:Es; simpl in E; [|discriminate].
  assert (len <= vector_max_size) as Hmax.
  { pose proof (EnsureWriteable_size_bound b b1 len) as Hb.
    specialize (Hb ltac:(apply H) E1). unfold size in Hb.
    apply store_bytes_inv in Es. rewrite length_take in Es.
    change (Z.to_nat 0) with O in Es. rewrite drop_0 in Es.
    destruct Es as [Hnil|Hfit]; [|lia].
    apply (f_equal length) in Hnil. rewrite length_take in Hnil. simpl in Hnil.
    pose proof max_size_large. lia. }
  split; [lia|]. by eapply EnsureWriteable_Ok_feasible.
Qed.

(** When the free space suffices, [Append] keeps the size of the storage. *)
Lemma Append_keeps_size (b : Buffer) (str : list byte) (len : Z) :
  WF b -> 0 <= len <= Z.of_nat (length str) ->
  len <= WritableBytes b + PrependableBytes b ->
  exists b', Append b str len = Ok b' /\ size b' = size b.
Proof.
  intros H Hlen Hfit.
  destruct (Append_spec b str len H Hlen) as (b1 & b' & E1 & EA & _ & _ & _ & Hsz & _);
    [lia|].
  exists b'. split; [done|]. rewrite Hsz.
  destruct (Z_le_gt_dec len (WritableBytes b)) as [Hen|Hne].
  - rewrite EnsureWriteable_enough in E1 by done. by injection E1 as <-.
  - rewrite EnsureWriteable_compact in E1 by (try done; lia).
    injection E1 as <-.
    pose proof (readable_content_length b H) as Hl.
    rewrite ReadableBytes_WF in * by done.
    destruct H as (Hr & Hrw & Hw & Hs).
    unfold size in *. simpl. rewrite length_app, length_drop. lia.
Qed.

(** X14.  Whenever [ReadFd] returns a count [n >= 0] on a well-formed buffer,
    exactly the [n] bytes delivered by [readv] have been appended behind the
    readable ones, on either path, and the invariant holds.  The storage has
    grown by at most 65536 bytes, and not at all when the delivered bytes fit
    in the writable and prependable space. *)
Theorem X14_ReadFd_appends_what_was_read
    (b b' : Buffer) (fd : read_fd) (saveErrno n saved : Z) :
  WF b -> ReadFd b fd saveErrno = Ok (b', n, saved) -> 0 <= n ->
  WF b'
  /\ saved = saveErrno
  /\ Z.of_nat (length (sys_bytes (readv fd (WritableBytes b) SCRATCH_SIZE))) = n
  /\ readable_content b'
     = readable_content b ++ sys_bytes (readv fd (WritableBytes b) SCRATCH_SIZE)
  /\ ReadableBytes b' = ReadableBytes b + n
  /\ size b <= size b' <= size b + 65536
  /\ (n <= WritableBytes b + PrependableBytes b -> size b' = size b).
Proof.
  intros H E Hn. pose proof modulus_max_size as Hmod.
  pose proof max_size_large as Hlarge.
  pose proof (WritableBytes_WF b H) as HW.
  pose proof (readv_bound fd (WritableBytes b) SCRATCH_SIZE) as Hbd.
  pose proof (readv_length fd (WritableBytes b) SCRATCH_SIZE) as Hlen.
  pose proof H as (Hr & Hrw & Hw & Hs).
  assert (SCRATCH_SIZE = 65535) as HS by reflexivity.
  specialize (Hbd ltac:(lia)).
  unfold ReadFd in E.
  set (r := readv fd (WritableBytes b) SCRATCH_SIZE) in *.
  set (W := WritableBytes b) in *.
  destruct (store_at_writePos b (take (Z.to_nat W) (sys_bytes r)) H)
    as (l & Hst & Hll & Hcont); [fold W; rewrite length_take; lia|].
  rewrite Hst in E. simpl in E.
  destruct (sys_ret r <? 0) eqn:Hneg.
  { apply Z.ltb_lt in Hneg. injection E as _ <- _. lia. }
  apply Z.ltb_ge in Hneg. specialize (Hlen Hneg).
  rewrite (to_size_t_small (sys_ret r)) in E by lia.
  pose proof (readable_content_length b H) as Hlc.
  pose proof (ReadableBytes_WF b H) as HR.
  destruct (sys_ret r <=? W) eqn:Hfit.
  - apply Z.leb_le in Hfit. injection E as <- <- <-.
    rewrite to_size_t_small by lia.
    rewrite (take_ge (sys_bytes r)) in Hcont by lia.
    assert (WF (set_writePos (set_buffer b l) (writePos_ b + sys_ret r))) as H'.
    { unfold WF, size in *. simpl. rewrite Hll. lia. }
    split_and!; try done.
    + rewrite <- Hcont. unfold readable_content. simpl. by rewrite Hlen.
    + rewrite ReadableBytes_WF by done. simpl. lia.
    + unfold size. simpl. rewrite Hll. lia.
    + unfold size. simpl. rewrite Hll. lia.
    + intros _. unfold size. simpl. by rewrite Hll.
  - apply Z.leb_gt in Hfit.
    destruct (Append _ _ _) as [b1| | |] eqn:EA; simpl in E; try discriminate.
    injection E as <- <- <-.
    replace (to_size_t (sys_ret r - W)) with (sys_ret r - W) in EA
      by (rewrite to_size_t_small; lia).
    set (b0 := set_writePos (set_buffer b l) (size (set_buffer b l))) in *.
    assert (size b0 = size b) as Hsz0 by (unfold b0, size; simpl; by rewrite Hll).
    assert (WF b0) as H0.
    { unfold WF, b0, size in *. simpl. rewrite Hll. lia. }
    assert (readable_content b0
            = readable_content b ++ take (Z.to_nat W) (sys_bytes r)) as Hc0.
    { rewrite <- Hcont. unfold readable_content, b0, size in *. simpl.
      rewrite Hll, length_take. do 2 f_equal. lia. }
    assert (WritableBytes b0 = 0) as HW0.
    { rewrite WritableBytes_WF by done. unfold b0, size. simpl. lia. }
    destruct (Append_Ok_inv _ _ _ _ H0 EA) as [Hl1 Hfeas].
    destruct (Append_spec _ _ _ H0 Hl1 Hfeas)
      as (_ & b2 & _ & E2 & H2 & Hc2 & HR2 & _ & _ & _ & Hs2).
    rewrite EA in E2. injection E2 as <-.
    split_and!; try done.
    + rewrite Hc2, Hc0, <- app_assoc. f_equal.
      rewrite (take_ge (drop _ _)) by (rewrite length_drop; lia).
      apply take_drop.
    + rewrite HR2, !ReadableBytes_WF by done. unfold b0, size in *. simpl.
      rewrite Hll. lia.
    + lia.
    + assert (writePos_ b0 = size b) as Hw0
        by (unfold b0, size; simpl; by rewrite Hll).
      lia.
    + intros Hfree.
      destruct (Append_keeps_size b0 (drop (Z.to_nat W) (sys_bytes r))
                  (sys_ret r - W) H0 Hl1) as (b3 & E3 & Hs3).
      { rewrite HW0. unfold PrependableBytes in *. unfold b0. simpl. lia. }
      rewrite EA in E3. injection E3 as <-. lia.
Qed.

(** An instance: 3 bytes arrive, 2 are writable and 1 is prependable, so the
    third goes through the scratch array and the storage keeps its size. *)
Lemma X14_witness :
  WF (mkBuffer (bytes_of "xyz") 0 3)
  /\ 0 = 0
  /\ Z.of_nat (length (sys_bytes (readv (RdReady (bytes_of "xyz"))
                         (WritableBytes (mkBuffer (bytes_of "abc") 1 1)) SCRATCH_SIZE))) = 3
  /\ readable_content (mkBuffer (bytes_of "xyz") 0 3)
     = readable_content (mkBuffer (bytes_of "abc") 1 1)
       ++ sys_bytes (readv (RdReady (bytes_of "xyz"))
                           (WritableBytes (mkBuffer (bytes_of "abc") 1 1)) SCRATCH_SIZE)
  /\ ReadableBytes (mkBuffer (bytes_of "xyz") 0 3)
     = ReadableBytes (mkBuffer (bytes_of "abc") 1 1) + 3
  /\ size (mkBuffer (bytes_of "abc") 1 1) <= size (mkBuffer (bytes_of "xyz") 0 3)
     <= size (mkBuffer (bytes_of "abc") 1 1) + 65536
  /\ (3 <= WritableBytes (mkBuffer (bytes_of "abc") 1 1)
           + PrependableBytes (mkBuffer (bytes_of "abc") 1 1) ->
      size (mkBuffer (bytes_of "xyz") 0 3) = size (mkBuffer (bytes_of "abc") 1 1)).
Proof.
  apply (X14_ReadFd_appends_what_was_read
           (mkBuffer (bytes_of "abc") 1 1) (mkBuffer (bytes_of "xyz") 0 3)
           (RdReady (bytes_of "xyz")) 0 3 0);
    [unfold WF; vm_compute; intuition discriminate
    | vm_compute; reflexivity | vm_compute; discriminate].
Defined.

(** X15.  What [EnsureWriteable(len)] promises to a caller that writes through
    [BeginWrite()]: when it returns (on a well-formed buffer, for a number of
    bytes an object can have), the [len] bytes from [BeginWrite()] on lie
    inside the storage, the readable bytes are the same as before, though
    perhaps at another place, and the invariant holds. *)
Theorem X15_EnsureWriteable_makes_room (b b1 : Buffer) (len : Z) :
  WF b -> 0 <= len <= vector_max_size ->
  EnsureWriteable b len = Ok b1 ->
  WF b1
  /\ BeginWrite b1 + len <= size b1
  /\ len <= WritableBytes b1
  /\ readable_content b1 = readable_content b
  /\ ReadableBytes b1 = ReadableBytes b
  /\ size b <= size b1.
Proof.
  intros H Hlen E.
  destruct (EnsureWriteable_post b len H) as (b2 & E2 & H2 & Hc & HR & HW & Hsz);
    [lia|by eapply EnsureWriteable_Ok_feasible|].
  rewrite E in E2. injection E2 as <-.
  split_and!; try done; [|lia].
  rewrite WritableBytes_WF in HW by done. unfold BeginWrite. lia.
Qed.

(** An instance: room for 2 bytes is made by moving "c" to the front. *)
Lemma X15_witness :
  WF (mkBuffer (bytes_of "cbc?") 0 1)
  /\ BeginWrite (mkBuffer (bytes_of "cbc?") 0 1) + 2 <= size (mkBuffer (bytes_of "cbc?") 0 1)
  /\ 2 <= WritableBytes (mkBuffer (bytes_of "cbc?") 0 1)
  /\ readable_content (mkBuffer (bytes_of "cbc?") 0 1)
     = readable_content (mkBuffer (bytes_of "abc?") 2 3)
  /\ ReadableBytes (mkBuffer (bytes_of "cbc?") 0 1)
     = ReadableBytes (mkBuffer (bytes_of "abc?") 2 3)
  /\ size (mkBuffer (bytes_of "abc?") 2 3) <= size (mkBuffer (bytes_of "cbc?") 0 1).
Proof.
  apply (X15_EnsureWriteable_makes_room
           (mkBuffer (bytes_of "abc?") 2 3) (mkBuffer (bytes_of "cbc?") 0 1) 2);
    [unfold WF; vm_compute; intuition discriminate
    | vm_compute; intuition discriminate | vm_compute; reflexivity].
Defined.

(** ** After a misuse of [HasWritten] *)



(** ** Consuming in steps *)

(** X17.  Consuming [n] bytes and then [m] bytes is consuming [n + m] bytes at
    once, as long as that many are readable; if they are not, the second call
    stops at the assertion although the first one has returned. *)
Theorem X17_Retrieve_in_steps (b : Buffer) (n m : Z) :
  WF b -> 0 <= n <= ReadableBytes b -> 0 <= m ->
  exists b1,
    Retrieve b n = Ok b1
    /\ Retrieve b1 m
       = (if decide (n + m <= ReadableBytes b) then Retrieve b (n + m) else AssertFail).
Proof.
  intros H Hn Hm. exists (set_readPos b (readPos_ b + n)).
  rewrite Retrieve_ok by done. split; [done|].
  assert (WF (set_readPos b (readPos_ b + n))) as H1.
  { rewrite ReadableBytes_WF in Hn by done.
    destruct H as (Hr & Hrw & Hw & Hs). unfold WF, size in *. simpl. lia. }
  assert (ReadableBytes (set_readPos b (readPos_ b + n)) = ReadableBytes b - n) as HR.
  { rewrite !ReadableBytes_WF by done. simpl. lia. }
  destruct (decide _) as [Hle|Hgt].
  - rewrite !Retrieve_ok by (try done; lia). simpl. do 2 f_equal. lia.
  - unfold Retrieve. rewrite HR. by rewrite (proj2 (Z.leb_gt _ _)) by lia.
Qed.

(** An instance: 1 byte and then 2 of the 3 readable bytes. *)
Lemma X17_witness :
  exists b1,
    Retrieve (mkBuffer (bytes_of "abcde") 1 4) 1 = Ok b1
    /\ Retrieve b1 2
       = (if decide (1 + 2 <= ReadableBytes (mkBuffer (bytes_of "abcde") 1 4))
          then Retrieve (mkBuffer (bytes_of "abcde") 1 4) (1 + 2) else AssertFail).
Proof.
  apply (X17_Retrieve_in_steps (mkBuffer (bytes_of "abcde") 1 4) 1 2);
    [unfold WF; vm_compute; intuition discriminate
    | vm_compute; intuition discriminate | vm_compute; discriminate].
Defined.
